(** * nine_itempanel: the item store and the Lua emitter of [server.js]

    A shallow embedding of the request handlers of [src/server.js] that
    read and write [items.json]:

    - [GET /generate-lua]  (the "Config Emitter" of the specification),
    - [DELETE /items/:index]  (the [deleteAt] operation of the "Item Store").

    The handlers work on whatever [JSON.parse] returns, so the embedding
    starts with the part of the JavaScript value semantics they rely on:
    truthiness, string conversion, property reads, [Object.entries],
    [parseInt], [Array.prototype.splice] and the one regular expression of
    the server.  The session check in front of the routes is plumbing and is
    not modelled: every handler below is the code that runs once the request
    has passed [requireAuth]. *)

From Stdlib Require Import ZArith Ascii String List Lia.
From stdpp Require Import base option list strings gmap pretty sorting.

#[local] Open Scope Z_scope.
Set Warnings "-register-all".

(** ** JavaScript values *)

Module JS.

(** A value as [JSON.parse] builds it.

    - A string stands for the JavaScript string whose UTF-16 code units are
      its characters, so the model covers the strings over U+0000..U+00FF.
    - A number is kept as the text [Number.prototype.toString] gives for it
      ([500], [0.5], [-3], [1e+21]): the server only ever prints numbers and
      tests them against zero.  The numbers of [items.json] are finite (the
      server writes the file with [JSON.stringify]), and no two of them print
      alike, apart from [-0] which prints as [0] and is falsy like [0].
    - An object is the list of its own properties in creation order (the
      order of the first occurrence of each key in the JSON text); keys are
      pairwise distinct.
    - [undefined] is not a JSON value: a property read returns an
      [option value], [None] being [undefined]. *)
Inductive value : Type :=
| VNull
| VBool (b : bool)
| VNum (repr : string)
| VStr (s : string)
| VArr (elems : list value)
| VObj (props : list (string * value)).

(** The outcome of evaluating an expression: a value, or a thrown
    [TypeError] (the only exception the modelled expressions can raise). *)
Inductive completion (A : Type) : Type :=
| Normal (a : A)
| Throw.
Arguments Normal {A} a.
Arguments Throw {A}.

#[global] Instance completion_ret : MRet completion := @Normal.
#[global] Instance completion_bind : MBind completion :=
  λ A B f m, match m with Normal a => f a | Throw => Throw end.


(** *** Association lists *)

Fixpoint assoc {A} (k : string) (o : list (string * A)) : option A :=
  match o with
  | [] => None
  | (k', v) :: o' => if String.eqb k k' then Some v else assoc k o'
  end.

Definition has_key {A} (k : string) (o : list (string * A)) : bool :=
  match assoc k o with Some _ => true | None => false end.

(** *** Truthiness ([ToBoolean]) *)

Definition truthy (v : option value) : bool :=
  match v with
  | None => false
  | Some VNull => false
  | Some (VBool b) => b
  | Some (VNum r) => negb (String.eqb r "0" || String.eqb r "NaN")
  | Some (VStr s) => negb (String.eqb s "")
  | Some (VArr _) => true
  | Some (VObj _) => true
  end.

(** *** String conversion ([ToString], as a template literal applies it)

    An array prints as its elements joined by commas, [null] elements as the
    empty string.  An object prints through the inherited
    [Object.prototype.toString], unless an own property ["toString"] hides it:
    the own property of a parsed object is never callable, the inherited
    [valueOf] returns the object itself, and [OrdinaryToPrimitive] throws. *)
Fixpoint to_string (v : value) : completion string :=
  match v with
  | VNull => Normal "null"
  | VBool true => Normal "true"
  | VBool false => Normal "false"
  | VNum r => Normal r
  | VStr s => Normal s
  | VArr l =>
      (fix join (l : list value) : completion string :=
         match l with
         | [] => Normal ""
         | x :: rest =>
             s ← match x with VNull => Normal "" | _ => to_string x end;
             match rest with
             | [] => Normal s
             | _ => r ← join rest; Normal (s +:+ "," +:+ r)
             end
         end) l
  | VObj o => if has_key "toString" o then Throw else Normal "[object Object]"
  end.

(** [`${e}`] for an expression that may be [undefined]. *)
Definition template (v : option value) : completion string :=
  match v with
  | None => Normal "undefined"
  | Some v => to_string v
  end.

(** *** Canonical array indices

    A property key is an array index when it is the decimal numeral, without
    leading zeros, of an integer below [2^32 - 1]. *)
Definition digit_value (radix : N) (c : ascii) : option N :=
  let n := N_of_ascii c in
  let d := if (48 <=? n)%N && (n <=? 57)%N then Some (n - 48)%N
           else if (97 <=? n)%N && (n <=? 122)%N then Some (n - 87)%N
           else if (65 <=? n)%N && (n <=? 90)%N then Some (n - 55)%N
           else None in
  match d with
  | Some d => if (d <? radix)%N then Some d else None
  | None => None
  end.

(** The maximal prefix of digits of the radix, most significant first, and
    what follows it. *)
Fixpoint leading_digits (radix : N) (s : string) : list N * string :=
  match s with
  | String c rest =>
      match digit_value radix c with
      | Some d => let '(ds, tl) := leading_digits radix rest in (d :: ds, tl)
      | None => ([], s)
      end
  | EmptyString => ([], EmptyString)
  end.

Definition digits_to_N (radix : N) (ds : list N) : N :=
  fold_left (λ acc d, acc * radix + d)%N ds 0%N.

Definition array_index (k : string) : option N :=
  match leading_digits 10 k with
  | (d :: ds, EmptyString) =>
      let n := digits_to_N 10 (d :: ds) in
      if bool_decide (pretty n = k) && (n <? 4294967295)%N
      then Some n else None
  | _ => None
  end.

(** *** Property reads

    [get v k] is [v.k].  Reading a property of [null] throws.  Primitives and
    arrays answer from their own properties ([length] and the indices); the
    property names the server reads (the item fields, [length]) are not
    defined on any of the prototypes involved, so nothing is inherited. *)
Fixpoint chars (s : string) : list ascii :=
  match s with
  | EmptyString => []
  | String c rest => c :: chars rest
  end.

Definition number_of_nat (n : nat) : value := VNum (pretty n).

Definition nth_index {A} (l : list A) (i : N) : option A :=
  if (i <? N.of_nat (length l))%N then l !! N.to_nat i else None.

Definition get (v : value) (k : string) : completion (option value) :=
  match v with
  | VNull => Throw
  | VBool _ | VNum _ => Normal None
  | VStr s =>
      if String.eqb k "length" then Normal (Some (number_of_nat (String.length s)))
      else Normal (i ← array_index k; c ← nth_index (chars s) i; Some (VStr (String c "")))
  | VArr l =>
      if String.eqb k "length" then Normal (Some (number_of_nat (length l)))
      else Normal (i ← array_index k; nth_index l i)
  | VObj o => Normal (assoc k o)
  end.

(** [v?.k]: [undefined] when [v] is [undefined] or [null]. *)
Definition get_optional (v : option value) (k : string) : option value :=
  match v with
  | None | Some VNull => None
  | Some v => match get v k with Normal r => r | Throw => None end
  end.

(** *** [Object.entries]

    The own enumerable string-keyed properties in the order of
    [OrdinaryOwnPropertyKeys]: array indices first, in ascending numeric
    order, then the other keys in creation order.  A string exposes its code
    units, an array its elements, a boolean or a number nothing. *)
Definition index_le (a b : N * (string * value)) : Prop := (a.1 ≤ b.1)%N.

#[global] Instance index_le_dec : RelDecision index_le.
Proof. intros a b. unfold index_le. apply _. Defined.

Definition indexed_props (o : list (string * value)) : list (N * (string * value)) :=
  omap (λ kv, i ← array_index kv.1; Some (i, kv)) o.

Definition named_props (o : list (string * value)) : list (string * value) :=
  filter (λ kv, array_index kv.1 = None) o.

Definition own_property_order (o : list (string * value)) : list (string * value) :=
  (snd <$> merge_sort index_le (indexed_props o)) ++ named_props o.

Definition entries (v : value) : list (string * value) :=
  match v with
  | VNull | VBool _ | VNum _ => []
  | VStr s => imap (λ i c, (pretty i, VStr (String c ""))) (chars s)
  | VArr l => imap (λ i x, (pretty i, x)) l
  | VObj o => own_property_order o
  end.

(** *** [parseInt(string)] without a radix

    Leading white space is skipped, a sign is read, a [0x] prefix selects
    radix 16, and the longest prefix of digits is converted; without a digit
    the result is [NaN], modelled by [None].  The result is kept as the exact
    integer: the server compares it with an array length and uses it as an
    array index, and rounding to a double changes neither. *)
Definition is_white_space (c : ascii) : bool :=
  let n := N_of_ascii c in
  ((9 <=? n)%N && (n <=? 13)%N) || (n =? 32)%N || (n =? 160)%N.

Fixpoint trim_start (s : string) : string :=
  match s with
  | String c rest => if is_white_space c then trim_start rest else s
  | EmptyString => EmptyString
  end.

Definition read_sign (s : string) : bool * string :=
  match s with
  | String "-" rest => (true, rest)
  | String "+" rest => (false, rest)
  | _ => (false, s)
  end.

Definition read_hex_prefix (s : string) : N * string :=
  match s with
  | String "0" (String "x" rest) | String "0" (String "X" rest) => (16%N, rest)
  | _ => (10%N, s)
  end.

Definition parseInt (s : string) : option Z :=
  let '(negative, s1) := read_sign (trim_start s) in
  let '(radix, s2) := read_hex_prefix s1 in
  match leading_digits radix s2 with
  | ([], _) => None
  | (ds, _) =>
      let n := Z.of_N (digits_to_N radix ds) in
      Some (if negative then - n else n)
  end.

(** *** [array[index]] and [array.splice(index, 1)]

    [index] is a number: an integer or [NaN] ([None]).  An element read with
    a key that is not an index of the array is [undefined].  [splice]
    converts its start with [ToIntegerOrInfinity] ([NaN] becomes 0), counts
    a negative start from the end, clamps it to the array, and removes
    [min(1, length - start)] elements. *)
Definition element_at (l : list value) (index : option Z) : option value :=
  match index with
  | Some i => if (0 <=? i) then nth_index l (Z.to_N i) else None
  | None => None
  end.

Definition splice_start (len : nat) (index : option Z) : nat :=
  let relative := default 0 index in
  if relative <? 0 then Z.to_nat (Z.max (Z.of_nat len + relative) 0)
  else Z.to_nat (Z.min relative (Z.of_nat len)).

Definition splice1 (l : list value) (index : option Z) : list value :=
  let start := splice_start (length l) index in
  take start l ++ drop (start + 1) l.

(** *** [url.replace(/^https?:\/\/[^\/]+/, '')]

    The pattern is anchored and has no flags: it matches at most once, at the
    start, case-sensitively.  [s?] and [[^/]+] are greedy, and no other
    split of the input can match when the greedy one fails. *)
Fixpoint strip_prefix (p s : string) : option string :=
  match p, s with
  | EmptyString, _ => Some s
  | String a p', String b s' => if Ascii.eqb a b then strip_prefix p' s' else None
  | String _ _, EmptyString => None
  end.

Definition match_scheme (s : string) : option string :=
  match strip_prefix "http" s with
  | Some r =>
      match strip_prefix "s" r with
      | Some r' =>
          match strip_prefix "://" r' with
          | Some rest => Some rest
          | None => strip_prefix "://" r
          end
      | None => strip_prefix "://" r
      end
  | None => None
  end.

Fixpoint skip_non_slash (s : string) : string :=
  match s with
  | String c rest => if Ascii.eqb c "/" then s else skip_non_slash rest
  | EmptyString => EmptyString
  end.

Definition strip_origin (url : string) : string :=
  match match_scheme url with
  | Some (String c rest) =>
      if Ascii.eqb c "/" then url else skip_non_slash rest
  | _ => url
  end.

(** [s.replace(...)] is a method call: it throws unless [s] is a string
    (no other parsed value has a callable [replace]). *)
Definition replace_origin (v : value) : completion string :=
  match v with
  | VStr s => Normal (strip_origin s)
  | _ => Throw
  end.

(** *** [url.split('/').pop()]: what follows the last slash. *)
Fixpoint last_segment_from (cur s : string) : string :=
  match s with
  | String c rest =>
      if Ascii.eqb c "/" then last_segment_from rest rest
      else last_segment_from cur rest
  | EmptyString => cur
  end.

Definition last_segment (s : string) : string := last_segment_from s s.

Definition split_pop (v : value) : completion string :=
  match v with
  | VStr s => Normal (last_segment s)
  | _ => Throw
  end.

(** *** [x > 0]

    The comparison converts [x] with [ToNumber]; an object or an array goes
    through its string conversion first.  Only the sign of the result
    matters.  For a string the [StringNumericLiteral] grammar decides:
    optional white space around an optionally signed decimal literal or
    [Infinity], or an unsigned binary, octal or hexadecimal integer; anything
    else is [NaN].  A literal [m * 10^e] is positive as a double when it is
    above half the least subnormal, [2^-1075]. *)
Definition trim (s : string) : string :=
  String.rev (trim_start (String.rev (trim_start s))).

Definition read_radix_prefix (s : string) : option (N * string) :=
  match s with
  | String "0" (String "x" rest) | String "0" (String "X" rest) => Some (16%N, rest)
  | String "0" (String "o" rest) | String "0" (String "O" rest) => Some (8%N, rest)
  | String "0" (String "b" rest) | String "0" (String "B" rest) => Some (2%N, rest)
  | _ => None
  end.

Definition read_exponent (s : string) : option Z :=
  match s with
  | EmptyString => Some 0
  | String "e" rest | String "E" rest =>
      let '(negative, r) := read_sign rest in
      match leading_digits 10 r with
      | (d :: ds, EmptyString) =>
          let n := Z.of_N (digits_to_N 10 (d :: ds)) in
          Some (if negative then - n else n)
      | _ => None
      end
  | _ => None
  end.

Definition decimal_positive (s : string) : bool :=
  let '(int_part, r1) := leading_digits 10 s in
  let '(frac_part, r2) :=
    match r1 with
    | String "." r => leading_digits 10 r
    | _ => ([], r1)
    end in
  match int_part ++ frac_part, read_exponent r2 with
  | [], _ | _, None => false
  | ds, Some e =>
      let m := Z.of_N (digits_to_N 10 ds) in
      let e10 := e - Z.of_nat (length frac_part) in
      if m =? 0 then false
      else if 0 <=? e10 then true
      else 10 ^ (- e10) <? m * 2 ^ 1075
  end.

Definition string_positive (s : string) : bool :=
  let t := trim s in
  match read_radix_prefix t with
  | Some (radix, body) =>
      match leading_digits radix body with
      | (d :: ds, EmptyString) => (0 <? digits_to_N radix (d :: ds))%N
      | _ => false
      end
  | None =>
      let '(negative, u) := read_sign t in
      if negative then false
      else if String.eqb u "Infinity" then true
      else decimal_positive u
  end.

Definition number_positive (repr : string) : bool :=
  match repr with
  | String "-" _ => false
  | _ => negb (String.eqb repr "0" || String.eqb repr "NaN")
  end.

Definition gt_zero (v : option value) : completion bool :=
  match v with
  | None | Some VNull => Normal false
  | Some (VBool b) => Normal b
  | Some (VNum r) => Normal (number_positive r)
  | Some (VStr s) => Normal (string_positive s)
  | Some (VArr l) => s ← to_string (VArr l); Normal (string_positive s)
  | Some (VObj o) => s ← to_string (VObj o); Normal (string_positive s)
  end.

(** [traverse f l]: [l.forEach] with a body that may throw. *)
Fixpoint traverse {A B} (f : A → completion B) (l : list A) : completion (list B) :=
  match l with
  | [] => Normal []
  | x :: rest => y ← f x; ys ← traverse f rest; Normal (y :: ys)
  end.

End JS.

(** ** The Lua emitter: the body of [app.get('/generate-lua')] *)

Module Emitter.
Import JS.

(** The line feed that ends every chunk the handler appends. *)
Definition nl : string := String "010" "".

(** [luaContent] is modelled by the list of the chunks appended to it, one
    per [luaContent += ...] statement, in the order of the appends; the text
    sent is their concatenation ([flatten]). *)
Definition flatten (chunks : list string) : string :=
  foldr String.append "" chunks.

(** [obj.k] where [obj] is itself the result of a property read: reading a
    property of [undefined] throws like reading one of [null]. *)
Definition get_of (obj : option value) (k : string) : completion (option value) :=
  match obj with
  | Some v => get v k
  | None => Throw
  end.

(** [if (obj.k) <body>], where the body appends chunks that depend on
    [obj.k]. *)
Definition optional (obj : option value) (k : string)
    (body : option value → completion (list string)) : completion (list string) :=
  v ← get_of obj k;
  if truthy v then body v else Normal [].

(** [luaContent += `<prefix>${v},\n`] *)
Definition raw_line (prefix : string) (v : option value) : completion (list string) :=
  s ← template v; Normal [prefix +:+ s +:+ "," +:+ nl].

(** [luaContent += `<prefix>'${v}',\n`] *)
Definition quoted_line (prefix : string) (v : option value) : completion (list string) :=
  s ← template v; Normal [prefix +:+ "'" +:+ s +:+ "'," +:+ nl].

(** Lines 184-188: the recorded origin is removed and [baseUrl] put in
    front. *)
Definition rewrite_imageurl (baseUrl imageurl : string) : string :=
  baseUrl +:+ strip_origin imageurl.

Definition imageurl_line (baseUrl : string) (v : option value) : completion (list string) :=
  match v with
  | Some u =>
      imageUrl ← replace_origin u;
      Normal ["            imageurl = '" +:+ baseUrl +:+ imageUrl +:+ "'," +:+ nl]
  | None => Throw
  end.

(** Lines 189-195. *)
Definition status_entry (kv : string * value) : completion string :=
  statusValue ← to_string kv.2;
  Normal ("                ['" +:+ kv.1 +:+ "'] = " +:+ statusValue +:+ "," +:+ nl).

Definition status_block (status : option value) : completion (list string) :=
  match status with
  | Some st =>
      es ← traverse status_entry (entries st);
      Normal (["            status = {" +:+ nl] ++ es ++ ["            }," +:+ nl])
  | None => Throw
  end.

(** Lines 177-197. *)
Definition client_block (baseUrl : string) (client : option value) : completion (list string) :=
  anim ← optional client "anim" (quoted_line "            anim = ");
  prop ← optional client "prop" (quoted_line "            prop = ");
  usetime ← optional client "usetime" (raw_line "            usetime = ");
  notification ← optional client "notification" (quoted_line "            notification = ");
  image ← optional client "image" (quoted_line "            image = ");
  imageurl ← optional client "imageurl" (imageurl_line baseUrl);
  status ← optional client "status" status_block;
  Normal (["        client = {" +:+ nl]
          ++ anim ++ prop ++ usetime ++ notification ++ image ++ imageurl ++ status
          ++ ["        }," +:+ nl]).

(** Lines 199-203. *)
Definition server_block (server : option value) : completion (list string) :=
  export ← optional server "export" (quoted_line "            export = ");
  Normal (["        server = {" +:+ nl] ++ export ++ ["        }," +:+ nl]).

(** Lines 205-215.  [forEach] is callable on arrays only. *)
Definition button_lines (button : value) : completion (list string) :=
  label ← (v ← get button "label"; quoted_line "                label = " v);
  group ← (v ← get button "group"; quoted_line "                group = " v);
  action ← (v ← get button "action"; quoted_line "                action = " v);
  Normal (["            {" +:+ nl] ++ label ++ group ++ action ++ ["            }," +:+ nl]).

Definition for_each_button (buttons : option value) : completion (list string) :=
  match buttons with
  | Some (VArr l) => per_button ← traverse button_lines l; Normal (concat per_button)
  | _ => Throw
  end.

(** [item.buttons && item.buttons.length > 0] *)
Definition buttons_nonempty (buttons : option value) : completion bool :=
  if truthy buttons then len ← get_of buttons "length"; gt_zero len
  else Normal false.

Definition buttons_block (buttons : option value) : completion (list string) :=
  buttons_nonempty buttons ≫= λ nonempty : bool,
  if nonempty then
    bs ← for_each_button buttons;
    Normal (["        buttons = {" +:+ nl] ++ bs ++ ["        }," +:+ nl])
  else Normal [].

(** Lines 169-218: the body of [items.forEach(item => ...)]. *)
Definition emit_item (baseUrl : string) (item : value) : completion (list string) :=
  name ← (v ← get item "name"; s ← template v; Normal ["    ['" +:+ s +:+ "'] = {" +:+ nl]);
  label ← (v ← get item "label"; quoted_line "        label = " v);
  weight ← optional (Some item) "weight" (raw_line "        weight = ");
  degrade ← optional (Some item) "degrade" (raw_line "        degrade = ");
  consume ← optional (Some item) "consume" (raw_line "        consume = ");
  stack ← optional (Some item) "stack" (λ _, Normal ["        stack = true," +:+ nl]);
  client ← optional (Some item) "client" (client_block baseUrl);
  server ← optional (Some item) "server" server_block;
  buttons ← (v ← get item "buttons"; buttons_block v);
  Normal (name ++ label ++ weight ++ degrade ++ consume ++ stack
          ++ client ++ server ++ buttons ++ ["    }," +:+ nl]).

(** Lines 168-219: the chunks of the whole file, and the text sent. *)
Definition emit_chunks (items : list value) (baseUrl : string) : completion (list string) :=
  per_item ← traverse (emit_item baseUrl) items;
  Normal (["return {" +:+ nl] ++ concat per_item ++ ["}" +:+ nl]).

Definition emit (items : list value) (baseUrl : string) : completion string :=
  chunks ← emit_chunks items baseUrl; Normal (flatten chunks).

End Emitter.

(** ** The request handlers and the state they act on *)

Module Server.
Import JS Emitter.

(** What [fs.existsSync] and [fs.unlinkSync] find under a name of
    [uploads/images]: nothing (the name is not in the map), an entry that
    [unlinkSync] removes, or one on which it throws (a directory, such as the
    empty name, which [path.join] resolves to [uploads/images] itself, or a
    file the process may not remove). *)
Inductive entry : Type :=
| Removable
| Locked.

#[global] Instance entry_eq_dec : EqDecision entry.
Proof. solve_decision. Defined.

(** The part of the machine the two handlers touch.

    - [items_json]: what [JSON.parse(fs.readFileSync('items.json'))] returns,
      the stored collection; [None] when the read or the parse throws.  The
      file holds an array: [POST /save-items] writes the [items] array of the
      panel.
    - [images]: the entries of [uploads/images].
    - [items_writable]: whether [fs.writeFileSync('items.json', ...)]
      completes.
    - [console]: the messages written with [console.error]. *)
Record world : Type := World {
  items_json : option (list value);
  images : gmap string entry;
  items_writable : bool;
  console : list string;
}.

Definition log (msg : string) (w : world) : world :=
  World (items_json w) (images w) (items_writable w) (console w ++ [msg]).

Definition set_items (items : list value) (w : world) : world :=
  World (Some items) (images w) (items_writable w) (console w).

Definition set_images (imgs : gmap string entry) (w : world) : world :=
  World (items_json w) imgs (items_writable w) (console w).

(** What the handlers read of a request. *)
Record request : Type := Request {
  x_forwarded_proto : option string;
  x_forwarded_host : option string;
  protocol : string;
  host : option string;
}.

Inductive response : Type :=
| SendLua (body : string)
| JsonSuccess
| JsonError (status : nat) (error : string).

(** [a || b] on header values: the left operand unless it is [undefined] or
    empty. *)
Definition or_else (a b : option string) : option string :=
  match a with
  | Some (String _ _) => a
  | _ => b
  end.

Definition show (s : option string) : string := default "undefined" s.

(** Lines 117-123. *)
Definition getBaseUrl (req : request) : string :=
  let protocol := or_else (x_forwarded_proto req) (Some (protocol req)) in
  let host := or_else (x_forwarded_host req) (host req) in
  show protocol +:+ "://" +:+ show host.

(** Lines 163-228. *)
Definition generate_lua (w : world) (req : request) : world * response :=
  let failed := (log "Error generating Lua file:" w,
                 JsonError 500 "Failed to generate Lua file") in
  match items_json w with
  | Some items =>
      let baseUrl := getBaseUrl req in
      match emit items baseUrl with
      | Normal luaContent => (w, SendLua luaContent)
      | Throw => failed
      end
  | None => failed
  end.

(** Lines 263-271: the image file named by the last segment of the URL is
    removed if it exists. *)
Definition unlink_image (w : world) (imageUrl : option value) : completion world :=
  match imageUrl with
  | Some u =>
      filename ← split_pop u;
      match images w !! filename with
      | Some Removable => Normal (set_images (delete filename (images w)) w)
      | Some Locked => Throw
      | None => Normal w
      end
  | None => Throw
  end.

(** Lines 262-272: [item] is [items[index]]. *)
Definition item_imageurl (item : option value) : option value :=
  get_optional (get_optional item "client") "imageurl".

Definition remove_asset (w : world) (item : option value) : completion world :=
  if truthy (item_imageurl item) then unlink_image w (item_imageurl item)
  else Normal w.

(** Lines 256-281. *)
Definition delete_item (w : world) (param : string) : world * response :=
  let failed w' := (log "Error deleting item:" w', JsonError 500 "Failed to delete item") in
  let index := parseInt param in
  match items_json w with
  | Some items =>
      match remove_asset w (element_at items index) with
      | Normal w1 =>
          let items' := splice1 items index in
          if items_writable w1 then (set_items items' w1, JsonSuccess)
          else failed w1
      | Throw => failed w
      end
  | None => failed w
  end.


End Server.

(** ** The other routes of [server.js] *)

Module Routes.
Import JS Emitter Server.

(** What a handler leaves behind: a status with a JSON body ([res.json],
    [res.status(n).json]), a redirection, or an exception that escapes the
    handler (Express's own error handler answers then). *)
Inductive reply : Type :=
| Answer (status : nat) (body : value)
| Redirect (location : string)
| Uncaught.

Definition success : value := VObj [("success", VBool true)].
Definition error (message : string) : value := VObj [("error", VStr message)].

(** *** Authentication (lines 69-114)

    The session is reduced to what the server reads of it:
    [req.session.authenticated], set by a successful login and gone with the
    session after a logout.  A middleware returns [None] when it calls
    [next()]. *)
Definition requireAuth (authenticated : bool) : option reply :=
  if authenticated then None else Some (Redirect "/login.html").

(** Lines 84-91. *)
Definition protect (authenticated : bool) (path : string) : option reply :=
  if String.eqb path "/login.html" || String.eqb path "/login"
     || String.eqb path "/check-auth"
  then None
  else requireAuth authenticated.

(** [a === b] for a parsed value and a string. *)
Definition strict_equal_string (v : option value) (s : string) : bool :=
  match v with
  | Some (VStr t) => String.eqb t s
  | _ => false
  end.

(** Lines 94-108.  [PASSWORD] is [process.env.PASSWORD]; the destructuring of
    [req.body] stands before the [try]. *)
Definition login (PASSWORD : string) (authenticated : bool) (body : value) : bool * reply :=
  match get body "password" with
  | Normal password =>
      if strict_equal_string password PASSWORD
      then (true, Answer 200 success)
      else (authenticated,
            Answer 401 (VObj [("success", VBool false);
                              ("message", VStr "Invalid password")]))
  | Throw => (authenticated, Uncaught)
  end.

(** Lines 111-114. *)
Definition logout (authenticated : bool) : bool * reply :=
  (false, Answer 200 success).

(** *** Uploads (lines 36-62 and 131-140) *)

Definition image_extensions : list string := ["jpg"; "jpeg"; "png"; "gif"].

(** [/\.(jpg|jpeg|png|gif)$/] tried at the start of [s]. *)
Definition image_extension_here (s : string) : bool :=
  match s with
  | String c ext => Ascii.eqb c "." && existsb (String.eqb ext) image_extensions
  | EmptyString => false
  end.

(** [originalname.match(/\.(jpg|jpeg|png|gif)$/)] finds a match: the pattern
    is tried at every position, from the left. *)
Fixpoint image_extension_match (s : string) : bool :=
  image_extension_here s
  || match s with
     | String _ rest => image_extension_match rest
     | EmptyString => false
     end.

(** Lines 55-61: whether the upload is accepted. *)
Definition fileFilter (originalname : string) : bool :=
  image_extension_match originalname.

(** Line 46: [Date.now() + '-' + file.originalname], [now] being what
    [Date.now()] returns. *)
Definition filename (now : N) (originalname : string) : string :=
  pretty now +:+ "-" +:+ originalname.

(** Line 137: the [url] that [POST /upload-image] answers with for the file
    stored as [stored]. *)
Definition upload_url (req : request) (stored : string) : string :=
  getBaseUrl req +:+ "/uploads/images/" +:+ stored.

(** *** The collection (lines 143-160) *)

(** Lines 143-150. *)
Definition get_items (w : world) : reply :=
  match items_json w with
  | Some items => Answer 200 (VArr items)
  | None => Answer 200 (VArr [])
  end.

(** What [JSON.parse] reads back from what [JSON.stringify] wrote: a number
    that is not finite is written as [null], and the properties of an object
    are written, hence created again, in the order of [Object.entries]. *)
Definition non_finite (repr : string) : bool :=
  String.eqb repr "Infinity" || String.eqb repr "-Infinity" || String.eqb repr "NaN".

Fixpoint stored_as (v : value) : value :=
  match v with
  | VNull | VBool _ | VStr _ => v
  | VNum r => if non_finite r then VNull else v
  | VArr l => VArr (map stored_as l)
  | VObj o => VObj (own_property_order (map (λ kv, let '(k, x) := kv in (k, stored_as x)) o))
  end.

(** Lines 153-160, for a request whose [items] is an array. *)
Definition save_items (w : world) (items : list value) : world * reply :=
  if items_writable w
  then (set_items (map stored_as items) w, Answer 200 success)
  else (w, Answer 500 (error "Failed to save items")).

(** *** [DELETE /delete-image] (lines 231-253) *)
Definition delete_image (w : world) (body : value) : world * reply :=
  let failed := (log "Error deleting image:" w, Answer 500 (error "Failed to delete image")) in
  match get body "imageUrl" with
  | Normal imageUrl =>
      if truthy imageUrl then
        match imageUrl with
        | Some u =>
            match split_pop u with
            | Normal name =>
                match images w !! name with
                | Some Removable =>
                    (set_images (delete name (images w)) w, Answer 200 success)
                | Some Locked => failed
                | None => (w, Answer 404 (error "Image file not found"))
                end
            | Throw => failed
            end
        | None => failed
        end
      else (w, Answer 400 (error "No image URL provided"))
  | Throw => (w, Uncaught)
  end.

End Routes.

(** ** Reading the emitted chunks

    Every chunk the emitter appends is one line of the Lua table: an
    indentation, then either [key = ...] or a closing brace.  The functions
    below recover the indentation and the key from the text of a chunk; the
    statements about which fields are written, and in which order, are made
    on what they return. *)

Module Layout.
Import JS Emitter.

Fixpoint indent_of (s : string) : nat * string :=
  match s with
  | String " " rest => let '(n, body) := indent_of rest in (S n, body)
  | _ => (0%nat, s)
  end.

(** The characters up to the first space, and what follows them. *)
Fixpoint take_word (s : string) : string * string :=
  match s with
  | String c rest =>
      if Ascii.eqb c " " then (EmptyString, s)
      else let '(w, r) := take_word rest in (String c w, r)
  | EmptyString => (EmptyString, EmptyString)
  end.

Definition key_of (body : string) : option string :=
  let '(w, r) := take_word body in
  match strip_prefix " = " r with
  | Some _ => Some w
  | None => None
  end.

(** The key a chunk assigns, when the chunk is indented by [depth] spaces. *)
Definition field_at (depth : nat) (chunk : string) : option string :=
  let '(n, body) := indent_of chunk in
  if Nat.eqb n depth then key_of body else None.

Definition fields_at (depth : nat) (chunks : list string) : list string :=
  omap (field_at depth) chunks.

(** The canonical orders of section 4.2 of the specification. *)
Definition scalar_order : list string := ["weight"; "degrade"; "consume"; "stack"].
Definition client_order : list string :=
  ["anim"; "prop"; "usetime"; "notification"; "image"; "imageurl"; "status"].

(** [item.k], [item.client.k] and [item.server.k] read without throwing
    ([item?.k], [item?.client?.k], [item?.server?.k]). *)
Definition item_field (item : value) (k : string) : option value :=
  get_optional (Some item) k.
Definition client_field (item : value) (k : string) : option value :=
  get_optional (item_field item "client") k.
Definition server_field (item : value) (k : string) : option value :=
  get_optional (item_field item "server") k.

(** The keys of [order] whose value is truthy, in the order of [order]. *)
Definition present_fields (read : string → option value) (order : list string) : list string :=
  List.filter (λ k, truthy (read k)) order.

(** The test of line 205, [false] when it throws. *)
Definition has_buttons (item : value) : bool :=
  match buttons_nonempty (item_field item "buttons") with
  | Normal b => b
  | Throw => false
  end.

(** Shapes of URLs, for the rewriting of [imageurl]. *)
Definition no_slash (s : string) : bool :=
  forallb (λ c, negb (Ascii.eqb c "/")) (chars s).

(** [http://] or [https://] followed by a non-empty authority and nothing
    else: what [getBaseUrl] builds from a protocol and a host. *)
Definition is_origin (baseUrl : string) : bool :=
  match match_scheme baseUrl with
  | Some (String c rest) => no_slash (String c rest)
  | _ => false
  end.

(** The URL starts with an origin the pattern of line 186 matches. *)
Definition has_origin (url : string) : bool :=
  match match_scheme url with
  | Some (String c _) => negb (Ascii.eqb c "/")
  | _ => false
  end.

(** The URL is a path from the root of the host. *)
Definition rooted (url : string) : bool :=
  match url with
  | String c _ => Ascii.eqb c "/"
  | EmptyString => false
  end.

(** The values whose properties can be read: all but [undefined] and
    [null]. *)
Definition readable (obj : option value) : Prop :=
  match obj with
  | None | Some VNull => False
  | Some _ => True
  end.



(** The chunks of a completed emission, none when it threw. *)
Definition chunks_of (m : completion (list string)) : list string :=
  match m with
  | Normal chunks => chunks
  | Throw => []
  end.

End Layout.

(** ** Sample data for the examples *)

Module Samples.
Import JS Emitter Server.

Definition sample_item (name url : string) : value :=
  VObj [("name", VStr name); ("label", VStr name);
        ("client", VObj [("imageurl", VStr url)])].

Definition plain_item (name : string) : value :=
  VObj [("name", VStr name); ("label", VStr name)].

Definition sample_items : list value :=
  [plain_item "water"; sample_item "bread" "http://localhost:3000/uploads/images/1-bread.png";
   plain_item "phone"].

Definition sample_world (imgs : gmap string entry) : world :=
  World (Some sample_items) imgs true [].


Definition direct_request : request :=
  Request None None "https" (Some "cdn.example").

(** The item of the end-to-end example of the specification, and an item
    with every field set. *)
Definition waterbottle : value :=
  VObj [("name", VStr "waterbottle"); ("label", VStr "Water Bottle");
        ("weight", VNum "500");
        ("client", VObj [("usetime", VNum "2500");
                         ("status", VObj [("thirst", VNum "200000")])])].

Definition full_item : value :=
  VObj [("name", VStr "bread"); ("label", VStr "Bread"); ("weight", VNum "500");
        ("degrade", VNum "60"); ("consume", VNum "0.5"); ("stack", VBool true);
        ("client", VObj [("anim", VStr "eating"); ("prop", VStr "burger");
                         ("usetime", VNum "2500"); ("notification", VStr "Yum");
                         ("image", VStr "bread.png");
                         ("imageurl", VStr "http://localhost:3000/uploads/images/1-bread.png");
                         ("status", VObj [("hunger", VNum "200000"); ("thirst", VStr "-1000")])]);
        ("server", VObj [("export", VStr "food.bread")]);
        ("buttons", VArr [VObj [("label", VStr "Eat"); ("group", VStr "use");
                                ("action", VStr "eat")]])].

End Samples.

(** ** Shapes of values, for the statements on the other routes *)

Module Shapes.
Import JS Emitter Server Routes.

(** The properties of an item the emitter reads. *)
Definition item_keys : list string :=
  ["name"; "label"; "weight"; "degrade"; "consume"; "stack"; "client"; "server";
   "buttons"].

(** A value that [JSON.stringify] and [JSON.parse] give back as it is: its
    numbers are finite and none of its keys is an array index. *)
Fixpoint plain (v : value) : bool :=
  match v with
  | VNull | VBool _ | VStr _ => true
  | VNum r => negb (non_finite r)
  | VArr l => forallb plain l
  | VObj o =>
      forallb (λ kv, let '(k, x) := kv in
                     bool_decide (array_index k = None) && plain x) o
  end.

(** The five chunks of one button. *)
Definition button_chunks (label group action : string) : list string :=
  ["            {" +:+ nl;
   "                label = '" +:+ label +:+ "'," +:+ nl;
   "                group = '" +:+ group +:+ "'," +:+ nl;
   "                action = '" +:+ action +:+ "'," +:+ nl;
   "            }," +:+ nl].

(** A string value other than the empty one, or any value that is not a
    string: what [imageUrl.split] throws on when it is truthy. *)
Definition is_string (v : value) : bool :=
  match v with
  | VStr _ => true
  | _ => false
  end.

(** A request body carrying an image URL. *)
Definition image_body (url : string) : value := VObj [("imageUrl", VStr url)].

(** Sample buttons. *)
Definition sample_buttons : list value :=
  [VObj [("label", VStr "Eat"); ("group", VStr "use"); ("action", VStr "eat")];
   VObj [("label", VStr "Drop"); ("group", VStr "misc")]].

(** An item whose [imageurl] is truthy and not a string, and a state of the
    store that holds it. *)
Definition stuck_item : value :=
  VObj [("name", VStr "bread"); ("client", VObj [("imageurl", VBool true)])].

Definition stuck_world : world :=
  World (Some [VObj [("name", VStr "water")]; stuck_item]) ∅ true [].

End Shapes.

(** * Properties *)

Import JS Emitter Server Layout Samples.

(** ** The completion monad *)

Lemma bind_normal {A B} (m : completion A) (f : A → completion B) (b : B) :
  m ≫= f = Normal b → ∃ a, m = Normal a ∧ f a = Normal b.
Proof. destruct m as [a|]; simpl; [eauto | discriminate]. Qed.


(** ** The item store: [DELETE /items/:index] *)

Section ItemStore.

Implicit Types (w : world) (items : list value) (param : string).








Lemma delete_item_eq w param items :
  items_json w = Some items →
  delete_item w param =
    match remove_asset w (element_at items (parseInt param)) with
    | Normal w1 =>
        if items_writable w1
        then (set_items (splice1 items (parseInt param)) w1, JsonSuccess)
        else (log "Error deleting item:" w1, JsonError 500 "Failed to delete item")
    | Throw => (log "Error deleting item:" w, JsonError 500 "Failed to delete item")
    end.
Proof. intros H. unfold delete_item. by rewrite H. Qed.














End ItemStore.

(** ** Determinism of [GET /generate-lua] *)

Section Determinism.





End Determinism.

(** ** Rewriting of [imageurl] *)

Section ImageUrl.

Implicit Types (s t url baseUrl : string).

Lemma append_cons c s t : String c s +:+ t = String c (s +:+ t).
Proof. reflexivity. Qed.

Lemma append_nil_r s : s +:+ "" = s.
Proof. induction s as [|c s IH]; [done|]. by rewrite append_cons, IH. Qed.

Lemma append_assoc s t u : (s +:+ t) +:+ u = s +:+ (t +:+ u).
Proof. induction s as [|c s IH]; [done|]. by rewrite !append_cons, IH. Qed.

Lemma strip_prefix_app p s r : strip_prefix p s = Some r → s = p +:+ r.
Proof.
  revert s. induction p as [|a p IH]; intros [|b s] H; simplify_eq/=; try done.
  destruct (Ascii.eqb_spec a b) as [->|]; [|done].
  by rewrite append_cons, <-(IH _ H).
Qed.

Lemma match_scheme_inv s r :
  match_scheme s = Some r → s = "http://" +:+ r ∨ s = "https://" +:+ r.
Proof.
  unfold match_scheme. intros H.
  destruct (strip_prefix "http" s) as [r0|] eqn:E0; [|done].
  apply strip_prefix_app in E0 as ->.
  destruct (strip_prefix "s" r0) as [r1|] eqn:E1.
  - destruct (strip_prefix "://" r1) as [r2|] eqn:E2.
    + injection H as ->. apply strip_prefix_app in E1 as ->.
      apply strip_prefix_app in E2 as ->. right. reflexivity.
    + apply strip_prefix_app in H as ->. left. reflexivity.
  - apply strip_prefix_app in H as ->. left. reflexivity.
Qed.

Lemma match_scheme_app s r t :
  match_scheme s = Some r → match_scheme (s +:+ t) = Some (r +:+ t).
Proof. intros [-> | ->]%match_scheme_inv; reflexivity. Qed.

Lemma skip_non_slash_shape s :
  skip_non_slash s = "" ∨ rooted (skip_non_slash s) = true.
Proof.
  induction s as [|c s IH]; [by left|]. simpl.
  destruct (Ascii.eqb_spec c "/") as [->|]; [by right | done].
Qed.

Lemma skip_non_slash_app s t :
  no_slash s = true → t = "" ∨ rooted t = true → skip_non_slash (s +:+ t) = t.
Proof.
  intros Hs Ht. induction s as [|c s IH].
  - destruct Ht as [-> | Ht]; [done|].
    destruct t as [|c t]; [done|]. simpl in *. by rewrite Ht.
  - rewrite append_cons. simpl in *.
    apply andb_true_iff in Hs as [Hc Hs].
    destruct (Ascii.eqb c "/"); [done|]. by apply IH.
Qed.

Lemma strip_origin_shape url :
  has_origin url = true ∨ rooted url = true →
  strip_origin url = "" ∨ rooted (strip_origin url) = true.
Proof.
  unfold has_origin, strip_origin. intros [H | H].
  - destruct (match_scheme url) as [[|c r]|]; try done.
    destruct (Ascii.eqb c "/"); [done|]. apply skip_non_slash_shape.
  - destruct url as [|c url]; [done|].
    assert (match_scheme (String c url) = None) as ->; [|by right].
    simpl in H. apply Ascii.eqb_eq in H as ->.
    destruct (match_scheme (String "/" url)) as [r|] eqn:E; [|done].
    apply match_scheme_inv in E as [E | E];
      rewrite append_cons in E; discriminate E.
Qed.

Lemma strip_origin_base baseUrl t :
  is_origin baseUrl = true → t = "" ∨ rooted t = true →
  strip_origin (baseUrl +:+ t) = t.
Proof.
  unfold is_origin, strip_origin. intros Hb Ht.
  destruct (match_scheme baseUrl) as [[|c r]|] eqn:E; try done.
  rewrite (match_scheme_app _ _ t E), append_cons.
  simpl in Hb. apply andb_true_iff in Hb as [Hc Hr].
  destruct (Ascii.eqb c "/"); [done|]. by apply skip_non_slash_app.
Qed.

Lemma imageurl_line_rewrite baseUrl url :
  imageurl_line baseUrl (Some (VStr url))
  = Normal ["            imageurl = '" +:+ rewrite_imageurl baseUrl url +:+ "'," +:+ nl].
Proof. unfold rewrite_imageurl. simpl. by rewrite append_assoc. Qed.

(** What [getBaseUrl] returns for an [http] or [https] request with a host
    is an origin. *)
Lemma getBaseUrl_is_origin req scheme authority :
  or_else (x_forwarded_proto req) (Some (protocol req)) = Some scheme →
  scheme = "http" ∨ scheme = "https" →
  or_else (x_forwarded_host req) (host req) = Some authority →
  authority ≠ "" → no_slash authority = true →
  is_origin (getBaseUrl req) = true.
Proof.
  intros Hp Hscheme Hh Hne Hslash. unfold getBaseUrl. rewrite Hp, Hh. simpl.
  destruct authority as [|c a]; [done|].
  unfold is_origin. by destruct Hscheme as [-> | ->].
Qed.

(** C3 as stated fails: a relative URL is glued to the base URL by the first
    rewrite, and the second rewrite takes the result for an origin and
    removes it; and a base URL the pattern does not match (a forwarded
    protocol other than [http] and [https]) is never removed, so every
    rewrite adds it again. *)
Lemma rewrite_imageurl_relative_counterexample :
  rewrite_imageurl "https://cdn.example"
    (rewrite_imageurl "https://cdn.example" "bread.png")
  ≠ rewrite_imageurl "https://cdn.example" "bread.png"
  ∧ rewrite_imageurl "ws://cdn.example"
      (rewrite_imageurl "ws://cdn.example" "/uploads/images/1-bread.png")
    ≠ rewrite_imageurl "ws://cdn.example" "/uploads/images/1-bread.png".
Proof. split; vm_compute; discriminate. Qed.

(** C3, amended.  When the base URL is an origin ([http://] or [https://]
    and a non-empty authority, as [getBaseUrl] builds it) and the recorded
    [imageurl] either starts with an [http(s)] origin or is a path starting
    with a slash, rewriting is idempotent: rewriting the rewritten URL with
    the same base yields the same URL, and the emitter writes the same line
    for both. *)
Theorem rewrite_imageurl_idempotent baseUrl url :
  is_origin baseUrl = true →
  has_origin url = true ∨ rooted url = true →
  rewrite_imageurl baseUrl (rewrite_imageurl baseUrl url)
  = rewrite_imageurl baseUrl url
  ∧ imageurl_line baseUrl (Some (VStr (rewrite_imageurl baseUrl url)))
    = imageurl_line baseUrl (Some (VStr url)).
Proof.
  intros Hb Hu.
  assert (H : rewrite_imageurl baseUrl (rewrite_imageurl baseUrl url)
              = rewrite_imageurl baseUrl url).
  { unfold rewrite_imageurl at 1 2.
    by rewrite (strip_origin_base _ _ Hb (strip_origin_shape _ Hu)). }
  split; [exact H|]. by rewrite !imageurl_line_rewrite, H.
Qed.

Lemma rewrite_imageurl_idempotent_witness :
  rewrite_imageurl "https://cdn.example"
    (rewrite_imageurl "https://cdn.example" "http://localhost:3000/uploads/images/1-bread.png")
  = "https://cdn.example/uploads/images/1-bread.png".
Proof.
  destruct (rewrite_imageurl_idempotent "https://cdn.example"
              "http://localhost:3000/uploads/images/1-bread.png") as [H _].
  - reflexivity.
  - left. reflexivity.
  - rewrite H. reflexivity.
Defined.

End ImageUrl.

(** ** The emitted fields *)

Section Emission.

Implicit Types (item : value) (obj v : option value) (k d : string)
  (chunks l : list string) (depth : nat).

Ltac invert_bind H :=
  let a := fresh "x" in
  let E := fresh "E" in
  apply bind_normal in H as (a & E & H).

(** *** Property reads that do not throw *)

Lemma get_item_field item k :
  item ≠ VNull → get item k = Normal (item_field item k).
Proof.
  intros Hnull. unfold item_field. simpl.
  destruct item; try done; simpl; by destruct (String.eqb k "length").
Qed.

Lemma truthy_readable obj : truthy obj = true → readable obj.
Proof. by destruct obj as [[]|]. Qed.

Lemma item_readable item : item ≠ VNull → readable (Some item).
Proof. by destruct item. Qed.

Lemma readable_get_of obj k :
  readable obj → get_of obj k = Normal (get_optional obj k).
Proof.
  destruct obj as [o|]; [|done]. intros H. simpl.
  destruct o; try done; simpl; by destruct (String.eqb k "length").
Qed.

Lemma optional_spec obj k body l :
  readable obj →
  optional obj k body = Normal l →
  if truthy (get_optional obj k) then body (get_optional obj k) = Normal l
  else l = [].
Proof.
  intros Hobj. unfold optional. rewrite (readable_get_of _ _ Hobj). simpl.
  destruct (truthy (get_optional obj k)); [done | congruence].
Qed.

(** A falsy value has no truthy property: the only one it can have is the
    [length] of the empty string, which is [0]. *)
Lemma falsy_fields obj k : truthy obj = false → truthy (get_optional obj k) = false.
Proof.
  destruct obj as [[]|]; simpl; try done.
  intros ->%negb_false_iff%String.eqb_eq.
  destruct (String.eqb k "length"); [done|].
  destruct (array_index k) as [i|]; [|done]. simpl.
  unfold nth_index. simpl. by destruct i.
Qed.

(** *** Keys of chunks *)

Lemma fields_at_app depth l1 l2 :
  fields_at depth (l1 ++ l2) = fields_at depth l1 ++ fields_at depth l2.
Proof. apply omap_app. Qed.

Lemma fields_at_cons depth c l :
  fields_at depth (c :: l) = option_list (field_at depth c) ++ fields_at depth l.
Proof. unfold fields_at. simpl. by destruct (field_at depth c). Qed.

Lemma fields_at_none depth l :
  Forall (λ c, field_at depth c = None) l → fields_at depth l = [].
Proof. induction 1 as [|c l Hc _ IH]; [done|]. simpl. by rewrite Hc. Qed.

Lemma traverse_forall {A B} (f : A → completion B) (P : B → Prop) xs ys :
  (∀ x y, f x = Normal y → P y) →
  traverse f xs = Normal ys → Forall P ys.
Proof.
  intros Hf. revert ys. induction xs as [|x xs IH]; intros ys H; simpl in H.
  - by simplify_eq.
  - invert_bind H. invert_bind H. simplify_eq. constructor; eauto.
Qed.

Lemma quoted_line_fields depth prefix v l r :
  (∀ s, option_list (field_at depth (prefix +:+ s)) = r) →
  quoted_line prefix v = Normal l → fields_at depth l = r.
Proof.
  intros Hp H. unfold quoted_line in H. invert_bind H. injection H as <-.
  by rewrite fields_at_cons, Hp, app_nil_r.
Qed.

Lemma raw_line_fields depth prefix v l r :
  (∀ s, option_list (field_at depth (prefix +:+ s)) = r) →
  raw_line prefix v = Normal l → fields_at depth l = r.
Proof.
  intros Hp H. unfold raw_line in H. invert_bind H. injection H as <-.
  by rewrite fields_at_cons, Hp, app_nil_r.
Qed.

Lemma imageurl_line_fields baseUrl v l :
  imageurl_line baseUrl v = Normal l →
  fields_at 8 l = [] ∧ fields_at 12 l = ["imageurl"].
Proof.
  unfold imageurl_line. destruct v as [u|]; [|done]. intros H.
  invert_bind H. by simplify_eq.
Qed.

Lemma status_block_fields v l :
  status_block v = Normal l →
  fields_at 8 l = [] ∧ fields_at 12 l = ["status"].
Proof.
  unfold status_block. destruct v as [st|]; [|done]. intros H.
  invert_bind H. simplify_eq.
  assert (H8 : fields_at 8 x = []).
  { apply fields_at_none. eapply traverse_forall; [|exact E].
    intros kv y H. unfold status_entry in H. invert_bind H. by simplify_eq. }
  assert (H12 : fields_at 12 x = []).
  { apply fields_at_none. eapply traverse_forall; [|exact E].
    intros kv y H. unfold status_entry in H. invert_bind H. by simplify_eq. }
  rewrite !fields_at_cons, !fields_at_app, H8, H12. by split.
Qed.

Lemma if_same {A} (b : bool) (x : A) : (if b then x else x) = x.
Proof. by destruct b. Qed.

Lemma present_fields_cons read k order :
  present_fields read (k :: order)
  = (if truthy (read k) then [k] else []) ++ present_fields read order.
Proof. unfold present_fields. simpl. by destruct (truthy (read k)). Qed.

Lemma optional_fields depth r obj k body l :
  readable obj →
  (∀ v l', body v = Normal l' → fields_at depth l' = r) →
  optional obj k body = Normal l →
  fields_at depth l = if truthy (get_optional obj k) then r else [].
Proof.
  intros Hobj Hbody H. apply optional_spec in H; [|done].
  destruct (truthy (get_optional obj k)); [eauto | by subst].
Qed.

Ltac line_fields :=
  let HH := fresh in
  intros ? ? HH;
  first [ eapply quoted_line_fields; [|exact HH]; intros; reflexivity
        | eapply raw_line_fields; [|exact HH]; intros; reflexivity
        | exact (proj1 (imageurl_line_fields _ _ _ HH))
        | exact (proj2 (imageurl_line_fields _ _ _ HH))
        | exact (proj1 (status_block_fields _ _ HH))
        | exact (proj2 (status_block_fields _ _ HH))
        | by injection HH as <- ].

Ltac split_fields := repeat (rewrite fields_at_cons || rewrite fields_at_app).

(** Replaces, in the goal, the keys of the chunks of every line written by
    [quoted_line] or [raw_line] with what their prefix determines. *)
Ltac line_of depth E :=
  lazymatch type of E with
  | quoted_line ?p _ = Normal ?l =>
      let r := eval vm_compute in (option_list (field_at depth (p +:+ ""))) in
      let H := fresh in
      assert (H : fields_at depth l = r)
        by (eapply quoted_line_fields; [|exact E]; intros; reflexivity);
      rewrite H; clear H
  | raw_line ?p _ = Normal ?l =>
      let r := eval vm_compute in (option_list (field_at depth (p +:+ ""))) in
      let H := fresh in
      assert (H : fields_at depth l = r)
        by (eapply raw_line_fields; [|exact E]; intros; reflexivity);
      rewrite H; clear H
  end.

Ltac lines depth :=
  repeat match goal with
  | E : quoted_line _ _ = Normal _ |- _ => line_of depth E; clear E
  | E : raw_line _ _ = Normal _ |- _ => line_of depth E; clear E
  | E : Normal _ = Normal _ |- _ => injection E as <-
  end.

Lemma client_block_fields baseUrl client l :
  truthy client = true →
  client_block baseUrl client = Normal l →
  fields_at 8 l = ["client"]
  ∧ fields_at 12 l = present_fields (get_optional client) client_order.
Proof.
  intros Hc%truthy_readable H. unfold client_block in H.
  invert_bind H. invert_bind H. invert_bind H. invert_bind H.
  invert_bind H. invert_bind H. invert_bind H. injection H as <-.
  split.
  - repeat match goal with
    | E : optional _ _ _ = Normal _ |- _ =>
        apply (optional_fields 8 [] _ _ _ _ Hc) in E; [|line_fields]
    end.
    rewrite !if_same in *. split_fields.
    by repeat match goal with E : fields_at 8 _ = _ |- _ => rewrite E; clear E end.
  - unfold client_order. rewrite !present_fields_cons.
    apply (optional_fields 12 ["anim"] _ _ _ _ Hc) in E; [|line_fields].
    apply (optional_fields 12 ["prop"] _ _ _ _ Hc) in E0; [|line_fields].
    apply (optional_fields 12 ["usetime"] _ _ _ _ Hc) in E1; [|line_fields].
    apply (optional_fields 12 ["notification"] _ _ _ _ Hc) in E2; [|line_fields].
    apply (optional_fields 12 ["image"] _ _ _ _ Hc) in E3; [|line_fields].
    apply (optional_fields 12 ["imageurl"] _ _ _ _ Hc) in E4; [|line_fields].
    apply (optional_fields 12 ["status"] _ _ _ _ Hc) in E5; [|line_fields].
    split_fields. rewrite E, E0, E1, E2, E3, E4, E5. reflexivity.
Qed.

Lemma server_block_fields server l :
  truthy server = true →
  server_block server = Normal l →
  fields_at 8 l = ["server"]
  ∧ fields_at 12 l = present_fields (get_optional server) ["export"].
Proof.
  intros Hs%truthy_readable H. unfold server_block in H.
  invert_bind H. injection H as <-.
  split.
  - apply (optional_fields 8 [] _ _ _ _ Hs) in E; [|line_fields].
    rewrite if_same in E. split_fields. by rewrite E.
  - apply (optional_fields 12 ["export"] _ _ _ _ Hs) in E; [|line_fields].
    rewrite present_fields_cons. split_fields. by rewrite E.
Qed.

Lemma fields_at_concat depth (ls : list (list string)) :
  Forall (λ l, fields_at depth l = []) ls → fields_at depth (concat ls) = [].
Proof.
  induction 1 as [|l ls Hl _ IH]; [done|].
  simpl. by rewrite fields_at_app, Hl, IH.
Qed.

Lemma button_lines_fields button l :
  button_lines button = Normal l → fields_at 8 l = [] ∧ fields_at 12 l = [].
Proof.
  unfold button_lines. intros H.
  invert_bind H. invert_bind E. invert_bind H. invert_bind E1.
  invert_bind H. invert_bind E3. injection H as <-.
  split; split_fields.
  - by lines 8%nat.
  - by lines 12%nat.
Qed.

Lemma buttons_block_fields buttons l :
  buttons_block buttons = Normal l →
  ∃ nonempty : bool,
    buttons_nonempty buttons = Normal nonempty
    ∧ fields_at 8 l = (if nonempty then ["buttons"] else [])
    ∧ fields_at 12 l = [].
Proof.
  unfold buttons_block. intros H. invert_bind H. exists x. split; [done|].
  destruct x; [|by injection H as <-].
  invert_bind H. injection H as <-.
  unfold for_each_button in E0.
  destruct buttons as [[]|]; try done.
  invert_bind E0. injection E0 as <-.
  split; split_fields.
  - rewrite fields_at_concat; [done|].
    eapply traverse_forall; [|exact E1].
    intros b y Hy. by apply button_lines_fields in Hy as [? _].
  - rewrite fields_at_concat; [done|].
    eapply traverse_forall; [|exact E1].
    intros b y Hy. by apply button_lines_fields in Hy as [_ ?].
Qed.

(** The keys the chunks of an item assign, at the depth of the item's own
    fields and at the depth of the fields of its [client] and [server]
    sub-mappings. *)
Lemma emit_item_fields baseUrl item chunks :
  emit_item baseUrl item = Normal chunks →
  fields_at 8 chunks
  = ["label"] ++ present_fields (item_field item) scalar_order
    ++ present_fields (item_field item) ["client"; "server"]
    ++ (if has_buttons item then ["buttons"] else [])
  ∧ fields_at 12 chunks
    = present_fields (client_field item) client_order
      ++ present_fields (server_field item) ["export"].
Proof.
  intros H. unfold emit_item in H.
  assert (Hnull : item ≠ VNull) by (by intros ->).
  pose proof (item_readable _ Hnull) as Hr.
  invert_bind H. rename x into name, E into Ename.
  invert_bind H. rename x into label, E into Elabel.
  invert_bind H. rename x into weight, E into Eweight.
  invert_bind H. rename x into degrade, E into Edegrade.
  invert_bind H. rename x into consume, E into Econsume.
  invert_bind H. rename x into stack, E into Estack.
  invert_bind H. rename x into client, E into Eclient.
  invert_bind H. rename x into server, E into Eserver.
  invert_bind H. rename x into buttons, E into Ebuttons.
  injection H as <-.
  invert_bind Ename. invert_bind Ename. injection Ename as <-.
  invert_bind Elabel.
  rewrite (get_item_field _ _ Hnull) in Ebuttons. simpl in Ebuttons.
  apply buttons_block_fields in Ebuttons as (nonempty & Hne & Hb8 & Hb12).
  assert (Hhas : has_buttons item = nonempty) by (unfold has_buttons; by rewrite Hne).
  apply (optional_spec _ _ _ _ Hr) in Eclient, Eserver.
  fold (item_field item "client") in Eclient.
  fold (item_field item "server") in Eserver.
  unfold scalar_order, client_order, client_field, server_field.
  rewrite !present_fields_cons, Hhas.
  split.
  - apply (optional_fields 8 ["weight"] _ _ _ _ Hr) in Eweight; [|line_fields].
    apply (optional_fields 8 ["degrade"] _ _ _ _ Hr) in Edegrade; [|line_fields].
    apply (optional_fields 8 ["consume"] _ _ _ _ Hr) in Econsume; [|line_fields].
    apply (optional_fields 8 ["stack"] _ _ _ _ Hr) in Estack; [|line_fields].
    split_fields. lines 8%nat.
    rewrite Eweight, Edegrade, Econsume, Estack, Hb8.
    assert (fields_at 8 client
            = if truthy (item_field item "client") then ["client"] else []) as ->.
    { destruct (truthy (item_field item "client")) eqn:Hc; [|by subst].
      by apply client_block_fields in Eclient as [-> _]. }
    assert (fields_at 8 server
            = if truthy (item_field item "server") then ["server"] else []) as ->.
    { destruct (truthy (item_field item "server")) eqn:Hs; [|by subst].
      by apply server_block_fields in Eserver as [-> _]. }
    simpl. by rewrite !app_nil_r, <-!app_assoc.
  - apply (optional_fields 12 [] _ _ _ _ Hr) in Eweight; [|line_fields].
    apply (optional_fields 12 [] _ _ _ _ Hr) in Edegrade; [|line_fields].
    apply (optional_fields 12 [] _ _ _ _ Hr) in Econsume; [|line_fields].
    apply (optional_fields 12 [] _ _ _ _ Hr) in Estack; [|line_fields].
    rewrite if_same in Eweight, Edegrade, Econsume, Estack.
    split_fields. lines 12%nat.
    rewrite Eweight, Edegrade, Econsume, Estack, Hb12.
    assert (fields_at 12 client
            = present_fields (get_optional (item_field item "client")) client_order) as ->.
    { destruct (truthy (item_field item "client")) eqn:Hc.
      - by apply client_block_fields in Eclient as [_ ->].
      - subst. unfold client_order, present_fields. simpl.
        by rewrite !(falsy_fields _ _ Hc). }
    assert (fields_at 12 server
            = present_fields (get_optional (item_field item "server")) ["export"]) as ->.
    { destruct (truthy (item_field item "server")) eqn:Hs.
      - by apply server_block_fields in Eserver as [_ ->].
      - subst. unfold present_fields. simpl.
        by rewrite !(falsy_fields _ _ Hs). }
    unfold client_order. rewrite !present_fields_cons.
    simpl. by rewrite !app_nil_r, <-!app_assoc.
Qed.

Lemma present_fields_In read order k :
  In k (present_fields read order) ↔ In k order ∧ truthy (read k) = true.
Proof. apply filter_In. Qed.

Lemma has_buttons_truthy item :
  has_buttons item = true → truthy (item_field item "buttons") = true.
Proof.
  unfold has_buttons, buttons_nonempty.
  by destruct (truthy (item_field item "buttons")).
Qed.

Lemma optional_falsy obj k body :
  readable obj → truthy (get_optional obj k) = false →
  optional obj k body = Normal [].
Proof.
  intros Hr Hk. unfold optional. rewrite (readable_get_of _ _ Hr). simpl.
  by rewrite Hk.
Qed.

Lemma buttons_block_falsy v : truthy v = false → buttons_block v = Normal [].
Proof. intros H. unfold buttons_block, buttons_nonempty. by rewrite H. Qed.

(** The text sent is the concatenation of an opening chunk, the chunks of
    the items in the order of the collection, and a closing chunk. *)
Lemma emit_items baseUrl items text :
  emit items baseUrl = Normal text →
  ∃ per_item,
    Forall2 (λ item chunks, emit_item baseUrl item = Normal chunks) items per_item
    ∧ text = flatten (["return {" +:+ nl] ++ concat per_item ++ ["}" +:+ nl]).
Proof.
  unfold emit, emit_chunks. intros H.
  invert_bind H. invert_bind E. injection E as <-. injection H as <-.
  exists x0. split; [|done].
  clear -E0. revert x0 E0. induction items as [|item items IH]; intros per H.
  - injection H as <-. constructor.
  - simpl in H. invert_bind H. invert_bind H. injection H as <-.
    constructor; eauto.
Qed.



(** C4.  A field that is absent or falsy is not written: no chunk of the
    item assigns it, at the depth of the item for [weight], [degrade],
    [consume], [stack], [client], [server] and [buttons], at the depth below
    for the fields of [client] and the [export] of [server].  In particular
    an item (other than [null]) none of whose optional fields is truthy is
    written as its keyed opening, its [label] and the closing brace, and
    nothing else. *)
Theorem falsy_fields_omitted baseUrl item :
  (∀ chunks, emit_item baseUrl item = Normal chunks →
     (∀ k, In k (scalar_order ++ ["client"; "server"; "buttons"]) →
           truthy (item_field item k) = false → ¬ In k (fields_at 8 chunks))
     ∧ (∀ k, In k client_order →
             truthy (client_field item k) = false → ¬ In k (fields_at 12 chunks))
     ∧ (truthy (server_field item "export") = false →
        ¬ In "export" (fields_at 12 chunks)))
  ∧ (∀ name label,
       item ≠ VNull →
       template (item_field item "name") = Normal name →
       template (item_field item "label") = Normal label →
       (∀ k, In k (scalar_order ++ ["client"; "server"; "buttons"]) →
             truthy (item_field item k) = false) →
       emit_item baseUrl item
       = Normal ["    ['" +:+ name +:+ "'] = {" +:+ nl;
                 "        label = '" +:+ label +:+ "'," +:+ nl;
                 "    }," +:+ nl]).
Proof.
  split.
  - intros chunks [H8 H12]%emit_item_fields. rewrite H8, H12. clear H8 H12.
    split_and!.
    + intros k Hk Hfalsy Hin. rewrite !in_app_iff in Hin.
      destruct Hin as [Hin | [Hin | [Hin | Hin]]].
      * simpl in Hin. destruct Hin as [<- | []]. simpl in Hk.
        intuition discriminate.
      * apply present_fields_In in Hin as [_ Hin]. congruence.
      * apply present_fields_In in Hin as [_ Hin]. congruence.
      * destruct (has_buttons item) eqn:Hb; [|done].
        destruct Hin as [<- | []].
        apply has_buttons_truthy in Hb. congruence.
    + intros k Hk Hfalsy Hin. rewrite in_app_iff in Hin.
      destruct Hin as [Hin | Hin].
      * apply present_fields_In in Hin as [_ Hin]. congruence.
      * apply present_fields_In in Hin as [Hin _].
        simpl in Hin, Hk. intuition (subst; discriminate).
    + intros Hfalsy Hin. rewrite in_app_iff in Hin.
      destruct Hin as [Hin | Hin].
      * apply present_fields_In in Hin as [Hin _].
        simpl in Hin. intuition discriminate.
      * apply present_fields_In in Hin as [_ Hin]. congruence.
  - intros name label Hnull Hname Hlabel Hfalsy.
    pose proof (item_readable _ Hnull) as Hr.
    unfold emit_item. rewrite !(get_item_field _ _ Hnull). simpl.
    rewrite Hname. simpl. unfold quoted_line. rewrite Hlabel. simpl.
    rewrite !optional_falsy, buttons_block_falsy;
      try done; apply Hfalsy; simpl; tauto.
Qed.

Lemma falsy_fields_omitted_witness :
  emit_item "https://cdn.example"
    (VObj [("name", VStr "water"); ("label", VStr "Water"); ("weight", VNum "0");
           ("stack", VBool false); ("client", VNull); ("server", VStr "")])
  = Normal ["    ['water'] = {" +:+ nl; "        label = 'Water'," +:+ nl; "    }," +:+ nl].
Proof.
  apply (proj2 (falsy_fields_omitted "https://cdn.example"
           (VObj [("name", VStr "water"); ("label", VStr "Water"); ("weight", VNum "0");
                  ("stack", VBool false); ("client", VNull); ("server", VStr "")]))
           "water" "Water").
  - discriminate.
  - reflexivity.
  - reflexivity.
  - intros k Hk. unfold scalar_order in Hk. simpl in Hk.
    repeat (destruct Hk as [<- | Hk]; [reflexivity|]). destruct Hk.
Defined.






(** *** The [status] mapping *)

Lemma named_props_id (o : list (string * value)) :
  Forall (λ kv, array_index kv.1 = None) o → named_props o = o.
Proof.
  unfold named_props. induction 1 as [|kv o Hkv _ IH]; [done|].
  rewrite filter_cons_True by done. by rewrite IH.
Qed.

Lemma indexed_props_nil (o : list (string * value)) :
  Forall (λ kv, array_index kv.1 = None) o → indexed_props o = [].
Proof.
  unfold indexed_props. induction 1 as [|kv o Hkv _ IH]; [done|].
  simpl. by rewrite Hkv.
Qed.







End Emission.

(** ** Examples *)

Section Examples.

Example parseInt_examples :
  parseInt "2" = Some 2 ∧ parseInt " 12px" = Some 12 ∧ parseInt "-1" = Some (-1)
  ∧ parseInt "0x1f" = Some 31 ∧ parseInt "first" = None ∧ parseInt "" = None.
Proof. by vm_compute. Qed.

Example strip_origin_examples :
  strip_origin "http://localhost:3000/uploads/images/1-bread.png"
  = "/uploads/images/1-bread.png"
  ∧ strip_origin "https://cdn.example" = ""
  ∧ strip_origin "/uploads/images/1-bread.png" = "/uploads/images/1-bread.png"
  ∧ strip_origin "bread.png" = "bread.png"
  ∧ strip_origin "HTTP://cdn.example/a.png" = "HTTP://cdn.example/a.png".
Proof. by vm_compute. Qed.

Example entries_order_example :
  entries (VObj [("thirst", VNum "1"); ("10", VNum "2"); ("hunger", VNum "3");
                 ("2", VNum "4"); ("02", VNum "5")])
  = [("2", VNum "4"); ("10", VNum "2"); ("thirst", VNum "1"); ("hunger", VNum "3");
     ("02", VNum "5")].
Proof. by vm_compute. Qed.

(** The end-to-end example of section 8 of the specification. *)
Example emit_waterbottle :
  emit [waterbottle] "https://cdn.example"
  = Normal (flatten
      ["return {" +:+ nl;
       "    ['waterbottle'] = {" +:+ nl;
       "        label = 'Water Bottle'," +:+ nl;
       "        weight = 500," +:+ nl;
       "        client = {" +:+ nl;
       "            usetime = 2500," +:+ nl;
       "            status = {" +:+ nl;
       "                ['thirst'] = 200000," +:+ nl;
       "            }," +:+ nl;
       "        }," +:+ nl;
       "    }," +:+ nl;
       "}" +:+ nl]).
Proof. by vm_compute. Qed.

(** Malformed items make the whole export fail. *)
Example emit_throws :
  emit [VNull] "https://cdn.example" = Throw
  ∧ emit [VObj [("client", VObj [("imageurl", VNum "5")])]] "https://cdn.example" = Throw
  ∧ emit [VObj [("buttons", VStr "none")]] "https://cdn.example" = Throw.
Proof. by vm_compute. Qed.

(** A negative index is counted from the end by [splice]. *)
Example delete_item_negative_index :
  delete_item (sample_world ∅) "-1"
  = (set_items [plain_item "water";
                sample_item "bread" "http://localhost:3000/uploads/images/1-bread.png"]
       (sample_world ∅), JsonSuccess).
Proof. by vm_compute. Qed.

(** Deleting an item removes its image when the file exists. *)
Example delete_item_removes_image :
  delete_item (sample_world {["1-bread.png" := Removable]}) "1"
  = (set_items [plain_item "water"; plain_item "phone"] (sample_world ∅), JsonSuccess).
Proof. by vm_compute. Qed.

End Examples.

(** * Further properties of the code *)

Import Routes Shapes.

(** ** The export as a whole *)

Section LuaExport.

Implicit Types (item : value) (items : list value) (baseUrl : string).

Lemma traverse_normal {A B} (f : A → completion B) xs ys :
  traverse f xs = Normal ys ↔ Forall2 (λ x y, f x = Normal y) xs ys.
Proof.
  revert ys. induction xs as [|x xs IH]; intros ys; simpl.
  - split; [intros [= <-]; constructor | by inversion 1].
  - split.
    + intros H. apply bind_normal in H as (y & Hy & H).
      apply bind_normal in H as (ys' & Hys & [= <-]).
      constructor; [done | by apply IH].
    + inversion 1 as [|? y ? ys' Hy Hys]; subst.
      apply IH in Hys. by rewrite Hy, Hys.
Qed.

Lemma traverse_throw {A B} (f : A → completion B) xs :
  traverse f xs = Throw ↔ ∃ x, In x xs ∧ f x = Throw.
Proof.
  induction xs as [|x xs IH]; simpl.
  - split; [done | by intros (? & [] & _)].
  - destruct (f x) as [y|] eqn:Hy; simpl.
    + destruct (traverse f xs) as [ys|] eqn:Hys; simpl.
      * split; [done|]. intros (x' & [<- | Hin] & Hx'); [congruence|].
        destruct IH as [_ IH]. discriminate IH. eauto.
      * split; [|done]. intros _.
        destruct IH as [(x' & Hin & Hx') _]; [done|]. eauto.
    + split; [|done]. eauto.
Qed.


(** X2.  Every item that is written starts with its keyed opening and its
    [label] line and ends with the closing brace, whatever the item holds.  A
    missing [name] or [label] is not refused: it is written as the text
    [undefined].  A string label is written as it is, without escaping. *)
Theorem emit_item_frame baseUrl item chunks :
  emit_item baseUrl item = Normal chunks →
  ∃ name label middle,
    template (item_field item "name") = Normal name
    ∧ template (item_field item "label") = Normal label
    ∧ chunks = ["    ['" +:+ name +:+ "'] = {" +:+ nl;
                "        label = '" +:+ label +:+ "'," +:+ nl]
               ++ middle ++ ["    }," +:+ nl]
    ∧ (item_field item "name" = None → name = "undefined")
    ∧ (item_field item "label" = None → label = "undefined")
    ∧ (∀ s, item_field item "label" = Some (VStr s) → label = s).
Proof.
  intros H. unfold emit_item in H.
  assert (Hnull : item ≠ VNull) by (by intros ->).
  rewrite !(get_item_field _ _ Hnull) in H.
  apply bind_normal in H as (c0 & Hname & H).
  apply bind_normal in H as (c1 & Hlabel & H).
  apply bind_normal in H as (c2 & _ & H). apply bind_normal in H as (c3 & _ & H).
  apply bind_normal in H as (c4 & _ & H). apply bind_normal in H as (c5 & _ & H).
  apply bind_normal in H as (c6 & _ & H). apply bind_normal in H as (c7 & _ & H).
  apply bind_normal in H as (c8 & _ & [= <-]).
  simpl in Hname. apply bind_normal in Hname as (name & Hname & [= <-]).
  simpl in Hlabel. unfold quoted_line in Hlabel.
  apply bind_normal in Hlabel as (label & Hlabel & [= <-]).
  exists name, label, (c2 ++ c3 ++ c4 ++ c5 ++ c6 ++ c7 ++ c8).
  split_and!; try done.
  - simpl. by rewrite <-!app_assoc.
  - intros E. rewrite E in Hname. by injection Hname.
  - intros E. rewrite E in Hlabel. by injection Hlabel.
  - intros s E. rewrite E in Hlabel. by injection Hlabel.
Qed.

Lemma emit_item_frame_witness :
  ∃ middle,
    emit_item "https://cdn.example" (VObj [("weight", VNum "5")])
    = Normal (["    ['" +:+ "undefined" +:+ "'] = {" +:+ nl;
               "        label = '" +:+ "undefined" +:+ "'," +:+ nl]
              ++ middle ++ ["    }," +:+ nl]).
Proof.
  destruct (emit_item_frame "https://cdn.example" (VObj [("weight", VNum "5")])
              (chunks_of (emit_item "https://cdn.example" (VObj [("weight", VNum "5")])))
              eq_refl)
    as (name & label & middle & _ & _ & Hchunks & Hname & Hlabel & _).
  exists middle. rewrite <-(Hname eq_refl) at 1. rewrite <-(Hlabel eq_refl).
  rewrite <-Hchunks. reflexivity.
Defined.

(** X3.  The export is a projection: two items (other than [null]) that
    agree on [name], [label], [weight], [degrade], [consume], [stack],
    [client], [server] and [buttons] are written alike, whatever other
    properties they carry and in whatever order their properties stand. *)
Theorem emit_item_reads_item_keys baseUrl item1 item2 :
  item1 ≠ VNull → item2 ≠ VNull →
  (∀ k, In k item_keys → item_field item1 k = item_field item2 k) →
  emit_item baseUrl item1 = emit_item baseUrl item2.
Proof.
  intros H1 H2 Hkeys. unfold emit_item, optional. simpl get_of.
  rewrite !(get_item_field _ _ H1), !(get_item_field _ _ H2).
  by rewrite !Hkeys by (simpl; tauto).
Qed.

Lemma emit_item_reads_item_keys_witness :
  emit_item "https://cdn.example"
    (VObj [("label", VStr "water"); ("id", VNum "7"); ("name", VStr "water")])
  = emit_item "https://cdn.example" (plain_item "water").
Proof.
  apply emit_item_reads_item_keys; [discriminate | discriminate |].
  intros k Hk. unfold item_keys in Hk. simpl in Hk.
  repeat (destruct Hk as [<- | Hk]; [reflexivity|]). destruct Hk.
Defined.

(** X4.  The base URL reaches the text through the [imageurl] line only: an
    item without a truthy [client.imageurl] is written alike under every
    base URL. *)
Theorem emit_item_base_url baseUrl1 baseUrl2 item :
  truthy (client_field item "imageurl") = false →
  emit_item baseUrl1 item = emit_item baseUrl2 item.
Proof.
  intros Hurl.
  assert (item = VNull ∨ item ≠ VNull) as [-> | Hnull]
    by (destruct item; auto; right; discriminate); [done|].
  unfold emit_item.
  assert (optional (Some item) "client" (client_block baseUrl1)
          = optional (Some item) "client" (client_block baseUrl2)) as ->; [|done].
  unfold optional. simpl get_of. rewrite (get_item_field _ _ Hnull). simpl.
  destruct (truthy (item_field item "client")) eqn:Hc; [|done].
  unfold client_block.
  by rewrite !(optional_falsy _ "imageurl") by (by try apply truthy_readable).
Qed.

Lemma emit_item_base_url_witness :
  emit_item "https://cdn.example" waterbottle = emit_item "http://localhost:3000" waterbottle.
Proof. apply emit_item_base_url. reflexivity. Defined.

End LuaExport.

(** ** Decimal numerals *)

Section Numerals.

Lemma pretty_N_go_head (x : N) (s : string) :
  (0 < x)%N →
  ∃ d rest, (1 ≤ d ≤ 9)%N ∧ pretty_N_go x s = String (pretty_N_char d) rest.
Proof.
  revert s. induction (N.lt_wf_0 x) as [x _ IH]. intros s Hx.
  rewrite pretty_N_go_step by done.
  destruct (N.eq_dec (x `div` 10)%N 0%N) as [E | E].
  - rewrite E, pretty_N_go_0. exists (x `mod` 10)%N, s. split; [|done].
    apply N.div_small_iff in E; [|done]. rewrite N.mod_small by done. lia.
  - apply IH; [apply N.div_lt; lia | by apply N.neq_0_lt_0].
Qed.

Lemma pretty_N_head (n : N) :
  ∃ d rest, (d ≤ 9)%N ∧ (n = 0%N ↔ d = 0%N) ∧ (n = 0%N → rest = "")
            ∧ pretty n = String (pretty_N_char d) rest.
Proof.
  unfold pretty, pretty_N. destruct (decide (n = 0%N)) as [-> | Hn].
  - exists 0%N, "". by split_and!.
  - destruct (pretty_N_go_head n "") as (d & rest & Hd & ->); [lia|].
    exists d, rest. split_and!; [lia | split; lia | done | done].
Qed.

Lemma digit_cases (d : N) :
  (d ≤ 9)%N →
  d = 0%N ∨ d = 1%N ∨ d = 2%N ∨ d = 3%N ∨ d = 4%N ∨ d = 5%N ∨ d = 6%N ∨ d = 7%N
  ∨ d = 8%N ∨ d = 9%N.
Proof. lia. Qed.

Lemma number_positive_pretty (n : nat) :
  n ≠ 0%nat → number_positive (pretty n) = true.
Proof.
  intros Hn. unfold pretty, pretty_nat.
  destruct (pretty_N_head (N.of_nat n)) as (d & rest & Hd & Hzero & _ & ->).
  assert (d ≠ 0%N) by (intros E; apply Hzero in E; lia).
  destruct (digit_cases d Hd) as [?|[?|[?|[?|[?|[?|[?|[?|[?|?]]]]]]]]];
    subst; done.
Qed.

End Numerals.

(** ** Buttons, and values the emitter cannot write *)

Section Buttons.

Implicit Types (item button : value) (baseUrl : string).

Lemma bind_throw_r {A B} (m : completion A) (f : A → completion B) :
  (∀ a, f a = Throw) → m ≫= f = Throw.
Proof. intros H. destruct m; simpl; auto. Qed.

Lemma bind_normal_l {A B} (a : A) (f : A → completion B) : Normal a ≫= f = f a.
Proof. reflexivity. Qed.

Lemma buttons_nonempty_array (l : list value) :
  buttons_nonempty (Some (VArr l)) = Normal (negb (bool_decide (l = []))).
Proof.
  unfold buttons_nonempty. simpl.
  destruct l as [|b l]; [done|].
  by rewrite number_positive_pretty.
Qed.

Lemma button_lines_chunks button label group action :
  button ≠ VNull →
  template (item_field button "label") = Normal label →
  template (item_field button "group") = Normal group →
  template (item_field button "action") = Normal action →
  button_lines button = Normal (button_chunks label group action).
Proof.
  intros Hnull Hl Hg Ha. unfold button_lines, quoted_line.
  rewrite !(get_item_field _ _ Hnull). simpl. by rewrite Hl, Hg, Ha.
Qed.

(** X5.  The buttons of an item are written in the order of the array, each
    as an opening brace, its [label], [group] and [action] lines in this
    order, and a closing brace (a missing field as the text [undefined]); an
    empty array is written as nothing at all, not as an empty mapping. *)
Theorem buttons_block_in_order (l : list value) (per_button : list (list string)) :
  Forall2 (λ button chunks,
             ∃ label group action,
               button ≠ VNull
               ∧ template (item_field button "label") = Normal label
               ∧ template (item_field button "group") = Normal group
               ∧ template (item_field button "action") = Normal action
               ∧ chunks = button_chunks label group action) l per_button →
  buttons_block (Some (VArr l))
  = Normal (match l with
            | [] => []
            | _ => ["        buttons = {" +:+ nl] ++ concat per_button
                   ++ ["        }," +:+ nl]
            end).
Proof.
  intros H. unfold buttons_block. rewrite buttons_nonempty_array.
  destruct l as [|b l]; [done|]. simpl negb. cbn beta iota.
  assert (traverse button_lines (b :: l) = Normal per_button) as Ht.
  { apply traverse_normal. eapply Forall2_impl; [exact H|].
    intros button chunks (la & gr & ac & ? & ? & ? & ? & ->).
    by apply button_lines_chunks. }
  unfold for_each_button. by rewrite Ht.
Qed.

Lemma buttons_block_in_order_witness :
  buttons_block (Some (VArr sample_buttons))
  = Normal (["        buttons = {" +:+ nl]
            ++ button_chunks "Eat" "use" "eat" ++ button_chunks "Drop" "misc" "undefined"
            ++ ["        }," +:+ nl]).
Proof.
  rewrite (buttons_block_in_order sample_buttons
             [button_chunks "Eat" "use" "eat"; button_chunks "Drop" "misc" "undefined"]).
  - reflexivity.
  - repeat constructor.
    + exists "Eat", "use", "eat". by split_and!.
    + exists "Drop", "misc", "undefined". by split_and!.
Defined.

Lemma client_block_throws baseUrl client u :
  truthy client = true →
  get_optional client "imageurl" = Some u →
  truthy (Some u) = true → is_string u = false →
  client_block baseUrl client = Throw.
Proof.
  intros Hc Hu Ht Hs. unfold client_block.
  do 5 (apply bind_throw_r; intros ?).
  unfold optional. rewrite (readable_get_of _ "imageurl" (truthy_readable _ Hc)), Hu.
  rewrite bind_normal_l, Ht. by destruct u.
Qed.

Lemma emit_item_throws baseUrl item u :
  truthy (item_field item "client") = true →
  client_field item "imageurl" = Some u →
  truthy (Some u) = true → is_string u = false →
  emit_item baseUrl item = Throw.
Proof.
  intros Hc Hu Ht Hs.
  assert (Hnull : item ≠ VNull) by (by intros ->).
  unfold emit_item. do 6 (apply bind_throw_r; intros ?).
  unfold optional. simpl get_of. rewrite (get_item_field _ "client" Hnull).
  rewrite bind_normal_l, Hc.
  by rewrite (client_block_throws baseUrl _ u).
Qed.

(** X6.  A truthy [client.imageurl] that is not a string (a number, [true],
    an object) cannot be written: [replace] is called on it and throws, so a
    collection holding such an item cannot be exported at all; the request
    is answered with an error and the stored state is left as it was, but
    for the logged message. *)
Theorem non_string_imageurl_blocks_export w req items item u :
  items_json w = Some items →
  In item items →
  truthy (item_field item "client") = true →
  client_field item "imageurl" = Some u →
  truthy (Some u) = true → is_string u = false →
  generate_lua w req
  = (log "Error generating Lua file:" w, JsonError 500 "Failed to generate Lua file").
Proof.
  intros Hitems Hin Hc Hu Ht Hs. unfold generate_lua. rewrite Hitems.
  assert (emit items (getBaseUrl req) = Throw) as ->; [|done].
  unfold emit, emit_chunks.
  assert (traverse (emit_item (getBaseUrl req)) items = Throw) as ->; [|done].
  apply traverse_throw. exists item. split; [done|].
  by apply (emit_item_throws _ _ u).
Qed.

Lemma non_string_imageurl_blocks_export_witness :
  generate_lua stuck_world direct_request
  = (log "Error generating Lua file:" stuck_world,
     JsonError 500 "Failed to generate Lua file").
Proof.
  apply (non_string_imageurl_blocks_export stuck_world direct_request
           [VObj [("name", VStr "water")]; stuck_item] stuck_item (VBool true));
    try reflexivity.
  simpl. tauto.
Defined.

End Buttons.

(** ** Uploads and their URLs *)

Section Uploads.

Implicit Types (s t url baseUrl originalname : string) (w : world).

Lemma match_scheme_rooted t : match_scheme (String "/" t) = None.
Proof.
  destruct (match_scheme (String "/" t)) as [r|] eqn:E; [|done].
  apply match_scheme_inv in E as [E | E]; rewrite append_cons in E; discriminate E.
Qed.

(** X7.  Removing the origin is complete: what [replace] returns never starts
    with an origin the pattern matches, so removing twice is removing
    once. *)
Theorem strip_origin_idempotent url :
  has_origin (strip_origin url) = false
  ∧ strip_origin (strip_origin url) = strip_origin url.
Proof.
  assert (∀ t, t = "" ∨ rooted t = true →
               has_origin t = false ∧ strip_origin t = t) as Hrooted.
  { intros [|c t] [E | E]; try done.
    simpl in E. apply Ascii.eqb_eq in E as ->.
    unfold has_origin, strip_origin. by rewrite match_scheme_rooted. }
  destruct (has_origin url) eqn:Hurl.
  - apply Hrooted, strip_origin_shape. by left.
  - assert (strip_origin url = url) as E.
    { unfold has_origin in Hurl. unfold strip_origin.
      destruct (match_scheme url) as [[|c r]|]; try done.
      apply negb_false_iff in Hurl. by rewrite Hurl. }
    by rewrite !E.
Qed.



Lemma image_extension_here_spec s :
  image_extension_here s = true ↔ ∃ ext, In ext image_extensions ∧ s = "." +:+ ext.
Proof.
  destruct s as [|c ext]; unfold image_extension_here.
  - split; [done|]. intros (e & _ & E).
    change ("." +:+ e) with (String "." e) in E. discriminate E.
  - rewrite andb_true_iff, Ascii.eqb_eq, existsb_exists. split.
    + intros [-> (e & Hin & ->%String.eqb_eq)]. eauto.
    + intros (e & Hin & E). change ("." +:+ e) with (String "." e) in E.
      injection E as -> ->. split; [done|].
      exists e. by rewrite String.eqb_refl.
Qed.

(** X9.  The upload filter accepts exactly the names that end with [.jpg],
    [.jpeg], [.png] or [.gif], in these letters; what stands before the last
    dot is free (it may be empty, and may hold other extensions). *)
Theorem fileFilter_accepts originalname :
  fileFilter originalname = true ↔
  ∃ stem ext, In ext image_extensions ∧ originalname = stem +:+ "." +:+ ext.
Proof.
  unfold fileFilter. induction originalname as [|c s IH].
  - split; [done|]. by intros ([|??] & ? & _ & ?).
  - change (image_extension_match (String c s))
      with (image_extension_here (String c s) || image_extension_match s).
    rewrite orb_true_iff, image_extension_here_spec, IH. split.
    + intros [(ext & Hin & ->) | (stem & ext & Hin & ->)].
      * by exists "", ext.
      * by exists (String c stem), ext.
    + intros ([|c' stem] & ext & Hin & E).
      * left. eauto.
      * right. rewrite append_cons in E. injection E as -> ->. eauto.
Qed.

Lemma no_slash_app s t : no_slash (s +:+ t) = no_slash s && no_slash t.
Proof.
  induction s as [|c s IH]; [done|].
  rewrite append_cons. unfold no_slash in *. simpl. by rewrite IH, andb_assoc.
Qed.

Lemma no_slash_pretty_N_go (x : N) s : no_slash (pretty_N_go x s) = no_slash s.
Proof.
  revert s. induction (N.lt_wf_0 x) as [x _ IH]. intros s.
  destruct (N.eq_dec x 0%N) as [-> | Hx]; [done|].
  rewrite pretty_N_go_step by lia.
  rewrite IH by (apply N.div_lt; lia).
  unfold no_slash. simpl. unfold pretty_N_char. by repeat case_match.
Qed.

Lemma no_slash_pretty (n : N) : no_slash (pretty n) = true.
Proof.
  unfold pretty, pretty_N. case_decide; [done|]. by rewrite no_slash_pretty_N_go.
Qed.

Lemma last_segment_from_no_slash cur s :
  no_slash s = true → last_segment_from cur s = cur.
Proof.
  revert cur. induction s as [|c s IH]; intros cur H; [done|].
  unfold no_slash in H. simpl in *. apply andb_true_iff in H as [Hc Hs].
  apply negb_true_iff in Hc. rewrite Hc. by apply IH.
Qed.

Lemma last_segment_from_app cur s t :
  no_slash t = true → last_segment_from cur (s +:+ "/" +:+ t) = t.
Proof.
  intros Ht. revert cur. induction s as [|c s IH]; intros cur.
  - change ("" +:+ "/" +:+ t) with (String "/" t). simpl.
    by apply last_segment_from_no_slash.
  - rewrite append_cons. simpl. destruct (Ascii.eqb c "/"); apply IH.
Qed.

Lemma upload_url_last_segment req stored :
  no_slash stored = true → last_segment (upload_url req stored) = stored.
Proof.
  intros H. unfold last_segment, upload_url.
  change "/uploads/images/" with ("/uploads/images" +:+ "/").
  rewrite <-!append_assoc.
  rewrite (append_assoc _ "/" stored). by apply last_segment_from_app.
Qed.

Lemma append_not_empty s t : t ≠ "" → s +:+ t ≠ "".
Proof. by destruct s, t. Qed.

Lemma upload_url_truthy req stored : truthy (Some (VStr (upload_url req stored))) = true.
Proof.
  simpl. apply negb_true_iff, String.eqb_neq. unfold upload_url, getBaseUrl.
  rewrite !append_assoc. by apply append_not_empty.
Qed.

Lemma delete_image_url w body url :
  get_optional (Some body) "imageUrl" = Some (VStr url) → url ≠ "" →
  delete_image w body =
    match images w !! last_segment url with
    | Some Removable =>
        (set_images (delete (last_segment url) (images w)) w, Answer 200 success)
    | Some Locked =>
        (log "Error deleting image:" w, Answer 500 (error "Failed to delete image"))
    | None => (w, Answer 404 (error "Image file not found"))
    end.
Proof.
  intros Hurl Hne.
  assert (Hnull : body ≠ VNull) by (by intros ->).
  unfold delete_image. rewrite (get_item_field _ _ Hnull). unfold item_field.
  rewrite Hurl. by destruct url.
Qed.

(** X10.  The URL handed out for an upload names the stored file: when the
    original name holds no slash, [DELETE /delete-image] with that URL
    removes the file stored under [Date.now() + '-' + originalname], and
    nothing else. *)
Theorem uploaded_image_can_be_deleted w req now originalname :
  no_slash originalname = true →
  images w !! filename now originalname = Some Removable →
  delete_image w (image_body (upload_url req (filename now originalname)))
  = (set_images (delete (filename now originalname) (images w)) w,
     Answer 200 success).
Proof.
  intros Hname Himg.
  rewrite (delete_image_url _ _ (upload_url req (filename now originalname))).
  - rewrite upload_url_last_segment, Himg; [done|].
    unfold filename. rewrite !no_slash_app, no_slash_pretty. by rewrite Hname.
  - reflexivity.
  - pose proof (upload_url_truthy req (filename now originalname)) as H.
    simpl in H. by apply negb_true_iff, String.eqb_neq in H.
Qed.

Lemma uploaded_image_can_be_deleted_witness :
  delete_image (sample_world {["1700000000000-bread.png" := Removable]})
    (image_body "https://cdn.example/uploads/images/1700000000000-bread.png")
  = (sample_world ∅, Answer 200 success).
Proof.
  pose proof (uploaded_image_can_be_deleted
                (sample_world {["1700000000000-bread.png" := Removable]})
                direct_request 1700000000000 "bread.png") as H.
  vm_compute in H. vm_compute. apply H; reflexivity.
Defined.

End Uploads.

(** ** [DELETE /delete-image] *)

Section DeleteImage.

Implicit Types (w : world) (body : value) (url : string).

(** What the handler reads of the body: a non-empty string, or nothing it
    can use. *)
Lemma delete_image_cases w body :
  (∃ url, get_optional (Some body) "imageUrl" = Some (VStr url) ∧ url ≠ "")
  ∨ ((∀ url, get_optional (Some body) "imageUrl" = Some (VStr url) → url = "")
     ∧ ((delete_image w body).1 = w
        ∨ (delete_image w body).1 = log "Error deleting image:" w)
     ∧ (delete_image w body).2 ≠ Answer 200 success).
Proof.
  destruct (get_optional (Some body) "imageUrl") as [u|] eqn:Hu.
  - assert (Hnull : body ≠ VNull) by (by intros ->).
    destruct u as [| b | r | url | l | o];
      try (right; unfold delete_image; rewrite (get_item_field _ _ Hnull);
           unfold item_field; rewrite Hu; simpl;
           split; [done | by repeat case_match; auto]).
    destruct url as [|c url].
    + right. unfold delete_image. rewrite (get_item_field _ _ Hnull).
      unfold item_field. rewrite Hu. simpl. split; [|auto].
      by intros url [= <-].
    + left. by exists (String c url).
  - right. split; [done|]. unfold delete_image.
    destruct body; try done; simpl in *;
      try (destruct (String.eqb "imageUrl" "length"); simplify_eq/=);
      rewrite ?Hu; simpl; auto.
Qed.

(** X11.  [DELETE /delete-image] never touches the stored collection (an
    item that refers to the image keeps its [imageurl]), and it removes at
    most one file: it answers with success exactly when the body carries a
    non-empty string whose last segment names a removable file, which is
    then the one file removed; in every other case the images are left as
    they were. *)
Theorem delete_image_effect w body :
  items_json (delete_image w body).1 = items_json w
  ∧ ((delete_image w body).2 = Answer 200 success ↔
     ∃ url, get_optional (Some body) "imageUrl" = Some (VStr url) ∧ url ≠ ""
            ∧ images w !! last_segment url = Some Removable)
  ∧ (∀ url, (delete_image w body).2 = Answer 200 success →
            get_optional (Some body) "imageUrl" = Some (VStr url) →
            images (delete_image w body).1 = delete (last_segment url) (images w))
  ∧ ((delete_image w body).2 ≠ Answer 200 success →
     images (delete_image w body).1 = images w).
Proof.
  destruct (delete_image_cases w body) as [(url & Hurl & Hne) | (Hno & Hw & Hr)].
  - rewrite (delete_image_url _ _ _ Hurl Hne).
    set (read := get_optional (Some body) "imageUrl") in *.
    destruct (images w !! last_segment url) as [[]|] eqn:Himg; simpl;
      (split_and!; [done | | |]).
    + split; [eauto|done].
    + intros url' _ Hurl'. rewrite Hurl in Hurl'. by injection Hurl' as <-.
    + done.
    + split; [done|]. intros (url' & Hurl' & _ & Himg').
      rewrite Hurl in Hurl'. injection Hurl' as <-. congruence.
    + done.
    + done.
    + split; [done|]. intros (url' & Hurl' & _ & Himg').
      rewrite Hurl in Hurl'. injection Hurl' as <-. congruence.
    + done.
    + done.
  - split_and!.
    + by destruct Hw as [-> | ->].
    + split; [done|]. intros (url & Hurl & Hne & _). by apply Hno in Hurl.
    + done.
    + intros _. by destruct Hw as [-> | ->].
Qed.

(** X12.  Deleting an image is not repeatable: after a successful
    [DELETE /delete-image], the same request is answered with 404 and
    changes nothing. *)
Theorem delete_image_twice w body :
  (delete_image w body).2 = Answer 200 success →
  delete_image (delete_image w body).1 body
  = ((delete_image w body).1, Answer 404 (error "Image file not found")).
Proof.
  intros Hok.
  destruct (delete_image_cases w body) as [(url & Hurl & Hne) | (_ & _ & Hr)];
    [|done].
  rewrite (delete_image_url w _ _ Hurl Hne) in Hok |- *.
  destruct (images w !! last_segment url) as [[]|] eqn:Himg; try done.
  rewrite (delete_image_url _ _ _ Hurl Hne). simpl.
  by rewrite lookup_delete_eq.
Qed.

Lemma delete_image_twice_witness :
  delete_image (sample_world ∅) (image_body "/uploads/images/1-bread.png")
  = (sample_world ∅, Answer 404 (error "Image file not found")).
Proof.
  pose proof (delete_image_twice (sample_world {["1-bread.png" := Removable]})
                (image_body "/uploads/images/1-bread.png")) as H.
  vm_compute in H. vm_compute. apply H. reflexivity.
Defined.

End DeleteImage.

(** ** More on [DELETE /items/:index] *)

Section DeleteItem.

Implicit Types (w : world) (items : list value) (param url : string).


Lemma remove_asset_falsy w item :
  truthy (item_imageurl item) = false → remove_asset w item = Normal w.
Proof. intros H. unfold remove_asset. by rewrite H. Qed.



(** X14.  A deletion touches no image unless the item at the index has a
    truthy [client.imageurl]: deleting an item without one, or asking for an
    index that holds no item, leaves every image in place, and the request
    succeeds exactly when [items.json] can be written. *)
Theorem delete_item_without_image w param items :
  items_json w = Some items →
  truthy (item_imageurl (element_at items (parseInt param))) = false →
  images (delete_item w param).1 = images w
  ∧ ((delete_item w param).2 = JsonSuccess ↔ items_writable w = true).
Proof.
  intros Hitems Hfalsy. rewrite (delete_item_eq _ _ _ Hitems).
  rewrite (remove_asset_falsy _ _ Hfalsy).
  destruct (items_writable w); simpl; intuition discriminate.
Qed.

Lemma delete_item_without_image_witness :
  images (delete_item (sample_world {["1-bread.png" := Removable]}) "0").1
  = {["1-bread.png" := Removable]}.
Proof.
  destruct (delete_item_without_image (sample_world {["1-bread.png" := Removable]})
              "0" sample_items) as [H _]; [reflexivity | reflexivity |].
  exact H.
Defined.









End DeleteItem.

(** ** The index as a decimal numeral *)

Section DecimalIndex.

Implicit Types (w : world) (items : list value).








End DecimalIndex.

(** ** Saving and listing the collection *)

Section SaveAndList.

Implicit Types (w : world) (items : list value).

Lemma value_nested_ind (P : value → Prop) :
  P VNull → (∀ b, P (VBool b)) → (∀ r, P (VNum r)) → (∀ s, P (VStr s)) →
  (∀ l, Forall P l → P (VArr l)) →
  (∀ o, Forall (λ kv, P kv.2) o → P (VObj o)) →
  ∀ v, P v.
Proof.
  intros HNull HBool HNum HStr HArr HObj. fix IH 1. intros [|b|r|s|l|o].
  - exact HNull.
  - apply HBool.
  - apply HNum.
  - apply HStr.
  - apply HArr. induction l as [|x l IHl]; constructor; [apply IH | exact IHl].
  - apply HObj. induction o as [|[k x] o IHo]; constructor; [apply IH | exact IHo].
Qed.

Lemma stored_as_plain v : plain v = true → stored_as v = v.
Proof.
  induction v as [| b | r | s | l IH | o IH] using value_nested_ind;
    intros Hplain; try done.
  - simpl in *. by destruct (non_finite r).
  - simpl in *. f_equal. induction IH as [|x l Hx _ IHl]; [done|].
    simpl in Hplain. apply andb_true_iff in Hplain as [Hx' Hl].
    simpl. by rewrite Hx, IHl.
  - simpl in *.
    assert (map (λ kv : string * value, let '(k, x) := kv in (k, stored_as x)) o = o
            ∧ Forall (λ kv, array_index kv.1 = None) o) as [-> Hkeys].
    { induction IH as [|[k x] o Hx _ IHo]; [done|].
      simpl in Hplain. apply andb_true_iff in Hplain as [Hkx Ho].
      apply andb_true_iff in Hkx as [Hk Hx'%Hx]. apply bool_decide_eq_true in Hk.
      destruct (IHo Ho) as [E Hkeys]. simpl in *. rewrite Hx', E.
      split; [done | by constructor]. }
    f_equal. unfold own_property_order.
    by rewrite indexed_props_nil, named_props_id.
Qed.

(** X20.  Saving then listing is a round trip on plain items: when
    [items.json] can be written and the posted items hold only finite
    numbers and no key that is an array index, [POST /save-items] answers
    with success, replaces the stored collection by the posted one whatever
    was stored before, and [GET /items.json] then returns exactly the posted
    items, in their order. *)
Theorem save_then_list w items :
  items_writable w = true →
  forallb plain items = true →
  save_items w items = (set_items items w, Answer 200 success)
  ∧ get_items (save_items w items).1 = Answer 200 (VArr items).
Proof.
  intros Hwrite Hplain.
  assert (map stored_as items = items) as E.
  { induction items as [|x items IH]; [done|].
    simpl in Hplain. apply andb_true_iff in Hplain as [Hx Hitems].
    simpl. by rewrite stored_as_plain, IH. }
  unfold save_items. rewrite Hwrite, E. done.
Qed.

Lemma save_then_list_witness :
  get_items (save_items (World None ∅ true []) [waterbottle; full_item]).1
  = Answer 200 (VArr [waterbottle; full_item]).
Proof.
  destruct (save_then_list (World None ∅ true []) [waterbottle; full_item])
    as [_ H]; [reflexivity | reflexivity |].
  exact H.
Defined.

End SaveAndList.

(** ** Sessions *)

Section Sessions.

Lemma protect_passes authenticated path :
  protect authenticated path = None ↔
  authenticated = true ∨ path = "/login.html" ∨ path = "/login" ∨ path = "/check-auth".
Proof.
  unfold protect, requireAuth.
  destruct (String.eqb_spec path "/login.html") as [-> | H1]; simpl; [tauto|].
  destruct (String.eqb_spec path "/login") as [-> | H2]; simpl; [tauto|].
  destruct (String.eqb_spec path "/check-auth") as [-> | H3]; simpl; [tauto|].
  destruct authenticated; intuition discriminate.
Qed.

Lemma protect_redirects authenticated path :
  protect authenticated path ≠ None →
  protect authenticated path = Some (Redirect "/login.html").
Proof. unfold protect, requireAuth. by repeat case_match. Qed.

Lemma login_cases PASSWORD authenticated body :
  (get_optional (Some body) "password" = Some (VStr PASSWORD)
   ∧ login PASSWORD authenticated body = (true, Answer 200 success))
  ∨ (get_optional (Some body) "password" ≠ Some (VStr PASSWORD)
     ∧ (login PASSWORD authenticated body).1 = authenticated
     ∧ (login PASSWORD authenticated body).2 ≠ Answer 200 success).
Proof.
  unfold login, get_optional.
  destruct (get body "password") as [[v|]|] eqn:Hget;
    [| destruct body; right; done..].
  assert (body ≠ VNull) as Hbody by (intros ->; discriminate Hget).
  destruct v as [| b | r | t | l | o];
    try (destruct body; right; done).
  simpl. destruct (String.eqb_spec t PASSWORD) as [-> | Hne].
  - left. by destruct body.
  - right. destruct body; try done; split_and!; try done; congruence.
Qed.

(** X21.  A login is accepted exactly when the body carries the password as
    a string equal to [PASSWORD]; the session then passes the gate on every
    path.  A refused login leaves the session as it was (it does not log an
    authenticated session out).  After a logout the gate lets through the
    login page, the login route and the status route, and redirects every
    other path to the login page. *)
Theorem login_and_gate PASSWORD authenticated body path :
  ((login PASSWORD authenticated body).2 = Answer 200 success ↔
   get_optional (Some body) "password" = Some (VStr PASSWORD))
  ∧ ((login PASSWORD authenticated body).2 = Answer 200 success →
     protect (login PASSWORD authenticated body).1 path = None)
  ∧ ((login PASSWORD authenticated body).2 ≠ Answer 200 success →
     (login PASSWORD authenticated body).1 = authenticated)
  ∧ (protect (logout (login PASSWORD authenticated body).1).1 path = None ↔
     path = "/login.html" ∨ path = "/login" ∨ path = "/check-auth")
  ∧ (protect (logout (login PASSWORD authenticated body).1).1 path ≠ None →
     protect (logout (login PASSWORD authenticated body).1).1 path
     = Some (Redirect "/login.html")).
Proof.
  split_and!.
  - destruct (login_cases PASSWORD authenticated body) as [[Hp ->] | (Hp & _ & Hno)];
      [done | tauto].
  - destruct (login_cases PASSWORD authenticated body) as [[Hp ->] | (Hp & _ & Hno)];
      [intros _ | done].
    apply protect_passes. by left.
  - destruct (login_cases PASSWORD authenticated body) as [[Hp ->] | (Hp & Hsame & Hno)];
      done.
  - rewrite protect_passes. unfold logout. simpl. intuition discriminate.
  - apply protect_redirects.
Qed.

End Sessions.
